(** * digitador-por-voz: the state-gated capture / segmentation / dispatch core

    A shallow embedding of [core_voice_typing.py]:

    - [StateManager], the four-state machine with its observer list;
    - [Recorder], the capture thread: one function per loop iteration of
      [Recorder.run], acting on the thread's locals ([frames],
      [silent_chunks]), on the two [threading.Event] flags and on the shared
      store (temporary wav files and the [queue.Queue] of their paths);
    - [Transcriber], the dispatch thread, modelled the same way;
    - [VoiceTypingEngine], which wires both workers to the state machine;
    - [KeyboardListener], the hotkey thread, and the window of
      [gui_voice_typing.py], each with the manager it observes, as small
      systems of their own.

    The three threads (caller, recorder, transcriber) are interleaved by a
    schedule: a list of events, each being one call of a [StateManager]
    method, one iteration of [Recorder.run] or one iteration of
    [Transcriber.run].  What the environment decides in an iteration (the
    clock reading, the result of [stream.read], the result of
    [model.transcribe]) is carried by the event.

    A worker reads its two flags once, at the top of an iteration, and
    touches its locals and the store in the body only; a call that changes
    the flags while an iteration is under way has the effect it would have
    after that iteration, or, when it falls between the two tests, the
    effect of an iteration spent waiting.  So an iteration is one step.

    Python floats are IEEE binary64 values ([SpecFloat], round to nearest
    even); Python ints are [Z].  The audio device, the header of the wav
    files, the keyboard and the model are outside: a read and a
    transcription are what the event says, and typing always succeeds. *)

From stdpp Require Import base option list strings gmap.
From Stdlib Require Import ZArith Lia.
From Stdlib Require Import Floats.SpecFloat.

Local Open Scope Z_scope.

(* ------------------------------------------------------------------------- *)
(** ** Python prelude *)
(* ------------------------------------------------------------------------- *)

(** The exceptions that the modelled code can meet. *)
Inductive exn : Type :=
  | ZeroDivisionError
  | OverflowError
  | ValueError
  | OSError
  | RuntimeError.

(** How a call ends: it returns a value or an exception propagates. *)
Inductive completion (A : Type) : Type :=
  | Returned (a : A)
  | Raised (e : exn).
Arguments Returned {A} a.
Arguments Raised {A} e.

#[global] Instance completion_ret : MRet completion := fun A a => Returned a.
#[global] Instance completion_bind : MBind completion := fun A B f m =>
  match m with
  | Returned a => f a
  | Raised e => Raised e
  end.

(** [len(l)] *)
Definition len {A} (l : list A) : Z := Z.of_nat (length l).

(** A slice bound [i] of a sequence of length [n], as Python normalises it:
    a negative bound counts from the end, and the result is clipped to
    [0 .. n]. *)
Definition slice_bound (n i : Z) : Z :=
  if i <? 0 then Z.max 0 (n + i) else Z.min i n.

(** [l[:i]] *)
Definition slice_to {A} (l : list A) (i : Z) : list A :=
  take (Z.to_nat (slice_bound (len l) i)) l.

(** [l[i:]] *)
Definition slice_from {A} (l : list A) (i : Z) : list A :=
  drop (Z.to_nat (slice_bound (len l) i)) l.

(** *** binary64 *)

Definition float : Type := spec_float.
Definition prec : Z := 53.
Definition emax : Z := 1024.

(** The double nearest to an int (ties to even), as [PyLong_AsDouble] finds
    it; an int beyond the range of a double raises [OverflowError]. *)
Definition float_of_int (z : Z) : completion float :=
  match binary_normalize prec emax z 0 false with
  | S754_infinity _ => Raised OverflowError
  | x => Returned x
  end.

Definition is_zero (x : float) : bool :=
  match x with S754_zero _ => true | _ => false end.

(** [x * n] for a float [x] and an int [n]. *)
Definition float_mul_int (x : float) (n : Z) : completion float :=
  y ← float_of_int n; Returned (SFmul prec emax x y).

(** [x / n] for a float [x] and an int [n]; Python raises on a zero
    divisor, for every [x]. *)
Definition float_div_int (x : float) (n : Z) : completion float :=
  y ← float_of_int n;
  if is_zero y then Raised ZeroDivisionError
  else Returned (SFdiv prec emax x y).

(** [int(x)]: truncation toward zero; infinities and NaN raise. *)
Definition py_int (x : float) : completion Z :=
  match x with
  | S754_zero _ => Returned 0
  | S754_finite s m e =>
      Returned (cond_Zopp s (if 0 <=? e then Z.pos m * 2 ^ e
                             else Z.pos m / 2 ^ (- e)))
  | S754_infinity _ => Raised OverflowError
  | S754_nan => Raised ValueError
  end.

(** *** numpy on an int16 buffer *)

(** [np.abs] on int16 wraps at the most negative value. *)
Definition np_abs_int16 (x : Z) : Z :=
  if x =? -32768 then -32768 else Z.abs x.

Definition sum_Z (xs : list Z) : Z := foldr Z.add 0 xs.

(** [a.mean()] of an integer array: the elements are accumulated in
    float64, which is exact for sums below 2^53, and the sum is divided by
    the element count.  The mean of an empty array is NaN (numpy warns and
    does not raise). *)
Definition np_mean (xs : list Z) : float :=
  SFdiv prec emax (binary_normalize prec emax (sum_Z xs) 0 false)
                  (binary_normalize prec emax (len xs) 0 false).

(** [m < t] for a float64 [m] and a Python int [t] in the range of a
    double. *)
Definition float_lt_int (m : float) (t : Z) : bool :=
  SFltb m (binary_normalize prec emax t 0 false).

(** *** str.strip *)

Definition is_space (c : Ascii.ascii) : bool :=
  let n := Z.of_nat (Ascii.nat_of_ascii c) in
  ((9 <=? n) && (n <=? 13)) || ((28 <=? n) && (n <=? 32)).

Fixpoint lstrip (s : string) : string :=
  match s with
  | EmptyString => EmptyString
  | String c r => if is_space c then lstrip r else s
  end.

Fixpoint rstrip (s : string) : string :=
  match s with
  | EmptyString => EmptyString
  | String c r =>
      match rstrip r with
      | EmptyString => if is_space c then EmptyString else String c EmptyString
      | r' => String c r'
      end
  end.

Definition strip (s : string) : string := rstrip (lstrip s).

(* ------------------------------------------------------------------------- *)
(** ** 1. AppState *)
(* ------------------------------------------------------------------------- *)

Inductive AppState : Type :=
  | INACTIVE
  | READY
  | RECORDING
  | PAUSED.

#[global] Instance AppState_eq_dec : EqDecision AppState.
Proof. solve_decision. Defined.

(* ------------------------------------------------------------------------- *)
(** ** 2. StateManager *)
(* ------------------------------------------------------------------------- *)

(** The observers registered with [on_state_change] mutate objects of their
    own; [W] is the type of that part of the heap.  A callback receives the
    new state and may raise. *)
Section StateManager.
Context {W : Type}.

Definition Callback : Type := AppState -> W -> completion unit * W.

Record StateManager : Type := mkStateManager {
  _state : AppState;
  _callbacks : list Callback
}.

Definition StateManager__init__ : StateManager :=
  {| _state := INACTIVE; _callbacks := [] |}.

Definition on_state_change (callback : Callback) (self : StateManager)
  : StateManager :=
  {| _state := _state self; _callbacks := _callbacks self ++ [callback] |}.

(** [try: cb(self._state)  except Exception: pass] *)
Definition try_pass (r : completion unit * W) : completion unit * W :=
  match r with
  | (Returned _, w) => (Returned (), w)
  | (Raised _, w) => (Returned (), w)
  end.

Fixpoint _notify_loop (cbs : list Callback) (st : AppState) (w : W)
  : completion unit * W :=
  match cbs with
  | [] => (Returned (), w)
  | cb :: rest =>
      match try_pass (cb st w) with
      | (Returned _, w') => _notify_loop rest st w'
      | (Raised e, w') => (Raised e, w')
      end
  end.

Definition _notify (self : StateManager) (w : W) : completion unit * W :=
  _notify_loop (_callbacks self) (_state self) w.

Definition set_state (self : StateManager) (s : AppState) : StateManager :=
  {| _state := s; _callbacks := _callbacks self |}.

(** The property [state]. *)
Definition state (self : StateManager) : AppState := _state self.

(** Each transition runs under [self._lock]: its test, its assignment and
    the notification form one step.  The result is the completion of the
    call, the manager and the observers' heap. *)
Definition Method : Type :=
  StateManager -> W -> completion unit * (StateManager * W).

Definition transition_to (s : AppState) : Method := fun self w =>
  let self' := set_state self s in
  let '(c, w') := _notify self' w in
  (c, (self', w')).

Definition activate : Method := fun self w =>
  if decide (_state self = INACTIVE) then transition_to READY self w
  else (Returned (), (self, w)).

Definition deactivate : Method := fun self w =>
  if bool_decide (_state self ∈ [READY; PAUSED; RECORDING])
  then transition_to INACTIVE self w
  else (Returned (), (self, w)).

Definition start_recording : Method := fun self w =>
  if bool_decide (_state self ∈ [READY; PAUSED])
  then transition_to RECORDING self w
  else (Returned (), (self, w)).

Definition pause_recording : Method := fun self w =>
  if decide (_state self = RECORDING) then transition_to PAUSED self w
  else (Returned (), (self, w)).

Definition stop_app : Method := fun self w =>
  transition_to INACTIVE self w.

(** The five transition operations of the control surface. *)
Inductive Op : Type :=
  | Activate
  | Deactivate
  | StartRecording
  | PauseRecording
  | StopApp.

Definition call (op : Op) : Method :=
  match op with
  | Activate => activate
  | Deactivate => deactivate
  | StartRecording => start_recording
  | PauseRecording => pause_recording
  | StopApp => stop_app
  end.

(** A sequence of calls, each made whatever the previous ones did; the
    completions are collected in call order. *)
Fixpoint call_all (ops : list Op) (self : StateManager) (w : W)
  : list (completion unit) * (StateManager * W) :=
  match ops with
  | [] => ([], (self, w))
  | op :: rest =>
      let '(c, (self', w')) := call op self w in
      let '(cs, final) := call_all rest self' w' in
      (c :: cs, final)
  end.
End StateManager.

Arguments StateManager W : clear implicits.
Arguments Callback W : clear implicits.

(** *** The transition table of the specification

    Inactive -activate-> Ready; Ready/Paused/Recording -deactivate->
    Inactive; Ready/Paused -startRecording-> Recording; Recording
    -pauseRecording-> Paused; any -forceStop-> Inactive.  An operation
    absent from the table in a state is illegal there. *)
Definition transition_table (s : AppState) (op : Op) : option AppState :=
  match op, s with
  | Activate, INACTIVE => Some READY
  | Deactivate, (READY | PAUSED | RECORDING) => Some INACTIVE
  | StartRecording, (READY | PAUSED) => Some RECORDING
  | PauseRecording, RECORDING => Some PAUSED
  | StopApp, _ => Some INACTIVE
  | _, _ => None
  end.

(** The destinations of the legal transitions of a sequence of operations
    read against the table from state [s], illegal ones skipped. *)
Fixpoint legal_destinations (s : AppState) (ops : list Op) : list AppState :=
  match ops with
  | [] => []
  | op :: rest =>
      match transition_table s op with
      | Some d => d :: legal_destinations d rest
      | None => legal_destinations s rest
      end
  end.

(* ------------------------------------------------------------------------- *)
(** ** Audio data and the shared store *)
(* ------------------------------------------------------------------------- *)

(** One [stream.read]: the int16 samples that [np.frombuffer] sees in the
    bytes returned. *)
Definition Chunk : Type := list Z.

(** The content of a wav file written by [_write_wav]: the chunks joined,
    in order. *)
Definition Segment : Type := list Chunk.

(** The temporary directory and the queue.  A file is named after the clock,
    [segment_{time.time():.0f}.wav]: a path is the integer printed in it.
    [audio_queue] holds paths, oldest first. *)
Record Store : Type := mkStore {
  files : gmap Z Segment;
  audio_queue : list Z
}.

Definition empty_store : Store := {| files := ∅; audio_queue := [] |}.

(** [self.audio_queue.put(file_path)] *)
Definition put (file_path : Z) (st : Store) : Store :=
  {| files := files st; audio_queue := audio_queue st ++ [file_path] |}.

(** [os.remove(audio_file)], [FileNotFoundError] passed over. *)
Definition os_remove (audio_file : Z) (st : Store) : Store :=
  {| files := delete audio_file (files st); audio_queue := audio_queue st |}.

(* ------------------------------------------------------------------------- *)
(** ** 3. Recorder *)
(* ------------------------------------------------------------------------- *)

Module Recorder.

(** Where the thread is in [run]: in the [while] loop with its two
    locals, past the final flush, or dead of an exception. *)
Inductive Thread : Type :=
  | Looping (frames : list Chunk) (silent_chunks : Z)
  | Finished
  | Crashed (e : exn).

Record t : Type := mk {
  sample_rate : Z;
  chunk_size : Z;
  silence_threshold : Z;
  required_silent_chunks : Z;
  _terminate : bool;
  _recording : bool;
  thread : Thread
}.

(** [__init__]: the fields, then [self.start()]; the thread enters [run]
    with [frames = []] and [silent_chunks = 0].  (The registration of
    [_handle_state_change] is done where the manager is in scope, in
    [engine_around].) *)
Definition __init__ (sample_rate chunk_size silence_threshold : Z)
    (silence_duration : float) : completion t :=
  x ← float_mul_int silence_duration sample_rate;
  y ← float_div_int x chunk_size;
  n ← py_int y;
  Returned {| sample_rate := sample_rate;
              chunk_size := chunk_size;
              silence_threshold := silence_threshold;
              required_silent_chunks := n;
              _terminate := false;
              _recording := false;
              thread := Looping [] 0 |}.

(** The object [__init__] leaves when the count it computes is [n]. *)
Definition fresh (sample_rate chunk_size silence_threshold n : Z) : t :=
  {| sample_rate := sample_rate;
     chunk_size := chunk_size;
     silence_threshold := silence_threshold;
     required_silent_chunks := n;
     _terminate := false;
     _recording := false;
     thread := Looping [] 0 |}.

Definition set_recording (b : bool) (self : t) : t :=
  mk (sample_rate self) (chunk_size self) (silence_threshold self)
     (required_silent_chunks self) (_terminate self) b (thread self).

Definition set_terminate (self : t) : t :=
  mk (sample_rate self) (chunk_size self) (silence_threshold self)
     (required_silent_chunks self) true (_recording self) (thread self).

Definition set_thread (th : Thread) (self : t) : t :=
  mk (sample_rate self) (chunk_size self) (silence_threshold self)
     (required_silent_chunks self) (_terminate self) (_recording self) th.

Definition _handle_state_change (state : AppState) (self : t) : t :=
  let self :=
    if decide (state = RECORDING) then set_recording true self
    else set_recording false self in
  if decide (state = INACTIVE) then set_terminate self else self.

(** [np.abs(audio_data).mean() < self.silence_threshold] *)
Definition is_silent (self : t) (data : Chunk) : bool :=
  float_lt_int (np_mean (np_abs_int16 <$> data)) (silence_threshold self).

(** [_write_wav], at clock reading [now]: the file is created or
    overwritten. *)
Definition _write_wav (now : Z) (frames : list Chunk) (st : Store)
  : Z * Store :=
  (now, {| files := <[now := frames]> (files st);
           audio_queue := audio_queue st |}).

(** [file_path = self._write_wav(x); self.audio_queue.put(file_path)] *)
Definition write_and_put (now : Z) (frames : list Chunk) (st : Store)
  : Store :=
  let '(file_path, st) := _write_wav now frames st in
  put file_path st.

(** One turn of the thread: the loop test and, when it holds, the body;
    when it fails, the code after the loop.  [read] is what
    [stream.read] does if it is called in this turn, [now] the clock if a
    file is written. *)
Definition turn (now : Z) (read : completion Chunk) (self : t) (st : Store)
  : t * Store :=
  match thread self with
  | Looping frames silent_chunks =>
      if _terminate self then
        (* Flush final *)
        let st := match frames with
                  | [] => st
                  | _ :: _ => write_and_put now frames st
                  end in
        (set_thread Finished self, st)
      else if negb (_recording self) then
        (self, st)
      else
        match read with
        | Raised e => (set_thread (Crashed e) self, st)
        | Returned data =>
            let frames := frames ++ [data] in
            let silent_chunks :=
              if is_silent self data then silent_chunks + 1 else 0 in
            if (required_silent_chunks self <=? silent_chunks)
               && (silent_chunks <? len frames)
            then
              let segment := slice_to frames (- silent_chunks) in
              let st := match segment with
                        | [] => st
                        | _ :: _ => write_and_put now segment st
                        end in
              let frames := slice_from frames (- silent_chunks) in
              (set_thread (Looping frames silent_chunks) self, st)
            else
              (set_thread (Looping frames silent_chunks) self, st)
        end
  | Finished | Crashed _ => (self, st)
  end.

End Recorder.

(* ------------------------------------------------------------------------- *)
(** ** 4. Transcriber *)
(* ------------------------------------------------------------------------- *)

Module Transcriber.

Inductive Thread : Type :=
  | Looping
  | Finished
  | Crashed (e : exn).

Record t : Type := mk {
  _terminate : bool;
  _process_allowed : bool;
  thread : Thread
}.

Definition __init__ : t :=
  {| _terminate := false; _process_allowed := false; thread := Looping |}.

Definition _handle_state_change (state : AppState) (self : t) : t :=
  let self :=
    if decide (state = RECORDING)
    then mk (_terminate self) true (thread self)
    else mk (_terminate self) false (thread self) in
  if decide (state = INACTIVE)
  then mk true (_process_allowed self) (thread self)
  else self.

Definition set_thread (th : Thread) (self : t) : t :=
  mk (_terminate self) (_process_allowed self) th.

(** [output_callback] is [VoiceTypingEngine._handle_text]: the text and a
    space are typed at the cursor.  [typed] is what has been typed so
    far. *)
Definition _handle_text (text : string) (typed : list string)
  : list string :=
  typed ++ [(text ++ " ")%string].

(** One turn of the thread.  [transcribed] is what [model.transcribe]
    does if it is called in this turn: the text of its result, or an
    exception. *)
Definition turn (transcribed : completion string) (self : t) (st : Store)
    (typed : list string) : t * Store * list string :=
  match thread self with
  | Looping =>
      if _terminate self then (set_thread Finished self, st, typed)
      else if negb (_process_allowed self) then (self, st, typed)
      else
        match audio_queue st with
        | [] => (self, st, typed)                 (* queue.Empty *)
        | audio_file :: rest =>
            let st := {| files := files st; audio_queue := rest |} in
            (* try *)
            let body : completion unit * list string :=
              match transcribed with
              | Raised e => (Raised e, typed)
              | Returned result =>
                  let text := strip result in
                  if decide (text = EmptyString) then (Returned (), typed)
                  else (Returned (), _handle_text text typed)
              end in
            (* finally *)
            let st := os_remove audio_file st in
            match body with
            | (Returned _, typed) => (self, st, typed)
            | (Raised e, typed) => (set_thread (Crashed e) self, st, typed)
            end
        end
  | Finished | Crashed _ => (self, st, typed)
  end.

End Transcriber.

(* ------------------------------------------------------------------------- *)
(** ** 6. VoiceTypingEngine and the running system *)
(* ------------------------------------------------------------------------- *)

(** The two worker objects: the part of the heap the registered observers
    write to. *)
Record Workers : Type := mkWorkers {
  recorder : Recorder.t;
  transcriber : Transcriber.t
}.

Definition recorder_callback : Callback Workers := fun s w =>
  (Returned (),
   {| recorder := Recorder._handle_state_change s (recorder w);
      transcriber := transcriber w |}).

Definition transcriber_callback : Callback Workers := fun s w =>
  (Returned (),
   {| recorder := recorder w;
      transcriber := Transcriber._handle_state_change s (transcriber w) |}).

Record System : Type := mkSystem {
  state_manager : StateManager Workers;
  workers : Workers;
  store : Store;
  typed : list string
}.

(** [VoiceTypingEngine.__init__] around a recorder [r]: a fresh queue, the
    recorder and then the transcriber registered with the manager, in that
    order. *)
Definition engine_around (r : Recorder.t) (sm : StateManager Workers)
  : System :=
  {| state_manager :=
       on_state_change transcriber_callback
         (on_state_change recorder_callback sm);
     workers := {| recorder := r; transcriber := Transcriber.__init__ |};
     store := empty_store;
     typed := [] |}.

(** 1.0 *)
Definition one : float := S754_finite false 4503599627370496 (-52).

(** [VoiceTypingEngine(sm)]: the recorder takes its defaults. *)
Definition VoiceTypingEngine__init__ (sm : StateManager Workers)
  : completion System :=
  r ← Recorder.__init__ 48000 1024 300 one;
  Returned (engine_around r sm).

(** What a thread does in one step of a schedule. *)
Inductive Event : Type :=
  | Call (op : Op)
  | RecorderTurn (now : Z) (read : completion Chunk)
  | TranscriberTurn (transcribed : completion string).

Definition step (sys : System) (ev : Event) : System :=
  match ev with
  | Call op =>
      let '(_, (sm, w)) := call op (state_manager sys) (workers sys) in
      {| state_manager := sm; workers := w;
         store := store sys; typed := typed sys |}
  | RecorderTurn now read =>
      let '(r, st) :=
        Recorder.turn now read (recorder (workers sys)) (store sys) in
      {| state_manager := state_manager sys;
         workers := {| recorder := r;
                       transcriber := transcriber (workers sys) |};
         store := st; typed := typed sys |}
  | TranscriberTurn transcribed =>
      let '(t, st, ty) :=
        Transcriber.turn transcribed (transcriber (workers sys))
                         (store sys) (typed sys) in
      {| state_manager := state_manager sys;
         workers := {| recorder := recorder (workers sys);
                       transcriber := t |};
         store := st; typed := ty |}
  end.

Definition run (sys : System) (schedule : list Event) : System :=
  fold_left step schedule sys.

(** Shorthands. *)
Definition fsm_state (sys : System) : AppState :=
  state (state_manager sys).
Definition rec_thread (sys : System) : Recorder.Thread :=
  Recorder.thread (recorder (workers sys)).
Definition queue (sys : System) : list Z := audio_queue (store sys).
Definition file (sys : System) (path : Z) : option Segment :=
  files (store sys) !! path.

(** An observer that leaves the two workers alone, whatever else it does
    and whether it raises or not: such are
    [KeyboardListener._handle_state_change] and the callback of the GUI. *)
Definition passive (cb : Callback Workers) : Prop :=
  forall s w, (cb s w).2 = w.

Definition register_all (cbs : list (Callback Workers))
    (sm : StateManager Workers) : StateManager Workers :=
  foldl (fun sm cb => on_state_change cb sm) sm cbs.

(** The start of every execution: a new manager, the engine built on it,
    then the other observers registered. *)
Definition boot (r : Recorder.t) (others : list (Callback Workers)) : System :=
  let sys := engine_around r StateManager__init__ in
  {| state_manager := register_all others (state_manager sys);
     workers := workers sys;
     store := store sys;
     typed := typed sys |}.

(** The recorder turns that read the chunks of a timestamped stream. *)
Definition reads (stream : list (Z * Chunk)) : list Event :=
  (fun tc => RecorderTurn (fst tc) (Returned (snd tc))) <$> stream.

(* ------------------------------------------------------------------------- *)
(** ** Vocabulary of the statements *)
(* ------------------------------------------------------------------------- *)

(** *** The required-silence count *)

(** The float [silence_duration * sample_rate / chunk_size]. *)
Definition duration_in_chunks (silence_duration : float)
    (sample_rate chunk_size : Z) : completion float :=
  x ← float_mul_int silence_duration sample_rate;
  float_div_int x chunk_size.

Definition is_finite (x : float) : bool :=
  match x with
  | S754_zero _ | S754_finite _ _ _ => true
  | S754_infinity _ | S754_nan => false
  end.

Definition sign_bit (x : float) : bool :=
  match x with
  | S754_zero s | S754_finite s _ _ | S754_infinity s => s
  | S754_nan => false
  end.

(** The exact comparison of the real value of a float with an integer
    ([None] for NaN). *)
Definition compare_float_int (y : float) (n : Z) : option comparison :=
  match y with
  | S754_nan => None
  | S754_infinity s => Some (if s then Lt else Gt)
  | S754_zero _ => Some (0 ?= n)
  | S754_finite s m e =>
      Some (if 0 <=? e then cond_Zopp s (Z.pos m * 2 ^ e) ?= n
            else cond_Zopp s (Z.pos m) ?= n * 2 ^ (- e))
  end.

(** [n] is [y] with its fraction dropped: [n <= y < n + 1] for a [y] that
    is not negative, [n - 1 < y <= n] for a negative one. *)
Definition truncation (y : float) (n : Z) : Prop :=
  if sign_bit y
  then compare_float_int y (n - 1) = Some Gt /\ compare_float_int y n ≠ Some Gt
  else compare_float_int y n ≠ Some Lt /\ compare_float_int y (n + 1) = Some Lt.

(** [math.ceil(x)] *)
Definition py_ceil (x : float) : completion Z :=
  match x with
  | S754_zero _ => Returned 0
  | S754_finite s m e =>
      Returned (if 0 <=? e then cond_Zopp s (Z.pos m * 2 ^ e)
                else - ((- cond_Zopp s (Z.pos m)) / 2 ^ (- e)))
  | S754_infinity _ => Raised OverflowError
  | S754_nan => Raised ValueError
  end.

(** The configuration rule as the specification words it: a recorder that
    is constructed has the count [ceil(duration * sampleRate / frameSize)],
    and that count is not 0 (a configuration yielding 0 is rejected). *)
Definition ceil_count_or_rejected (sample_rate chunk_size threshold : Z)
    (silence_duration : float) : Prop :=
  forall r : Recorder.t,
    Recorder.__init__ sample_rate chunk_size threshold silence_duration
      = Returned r ->
    (duration_in_chunks silence_duration sample_rate chunk_size ≫= py_ceil)
      = Returned (Recorder.required_silent_chunks r)
    /\ Recorder.required_silent_chunks r ≠ 0.

(** 0.0 *)
Definition zero : float := S754_zero false.

(** *** What a schedule enqueues *)

(** The files whose paths a step appends to the queue, each with the
    content it has when the step is over ([None] for a path without a
    file). *)
Definition enqueued_by (sys : System) (ev : Event) : list (option Segment) :=
  let sys' := step sys ev in
  file sys' <$> drop (length (queue sys)) (queue sys').

Fixpoint enqueued (sys : System) (schedule : list Event)
  : list (option Segment) :=
  match schedule with
  | [] => []
  | ev :: rest => enqueued_by sys ev ++ enqueued (step sys ev) rest
  end.

(** The chunks of a timestamped stream. *)
Definition chunks (stream : list (Z * Chunk)) : list Chunk := snd <$> stream.

(** *** States of the recorder *)

(** The recorder is in its loop and reads: it has not been told to
    terminate, it has been told to record, and its locals are [frames] and
    [silent_chunks]. *)
Definition capturing (sys : System) (frames : list Chunk) (silent_chunks : Z)
  : Prop :=
  Recorder._terminate (recorder (workers sys)) = false
  /\ Recorder._recording (recorder (workers sys)) = true
  /\ rec_thread sys = Recorder.Looping frames silent_chunks.

(** The counter after [data] has been read. *)
Definition counted (r : Recorder.t) (data : Chunk) (silent_chunks : Z) : Z :=
  if Recorder.is_silent r data then silent_chunks + 1 else 0.

Definition silent (r : Recorder.t) (data : Chunk) : Prop :=
  Recorder.is_silent r data = true.

Definition speech (r : Recorder.t) (data : Chunk) : Prop :=
  Recorder.is_silent r data = false.

(** [frames] ends with a run of exactly [k] silent chunks: the chunk before
    the run, if there is one, is not silent. *)
Definition trailing_silence (r : Recorder.t) (frames : list Chunk) (k : Z)
  : Prop :=
  exists pre run : list Chunk,
    frames = pre ++ run /\ len run = k /\ Forall (silent r) run
    /\ (forall c, last pre = Some c -> speech r c).

(** *** Invariant of the running system *)

(** The two workers are the first observers of the manager, and the other
    observers are passive. *)
Definition wired (sys : System) : Prop :=
  exists others,
    _callbacks (state_manager sys)
      = recorder_callback :: transcriber_callback :: others
    /\ Forall passive others.

(** While the recorder loops, its counter is the length of the silent run
    its buffer ends with. *)
Definition buffer_shape (r : Recorder.t) : Prop :=
  match Recorder.thread r with
  | Recorder.Looping frames k => trailing_silence r frames k
  | _ => True
  end.

Definition consistent (sys : System) : Prop :=
  wired sys
  /\ buffer_shape (recorder (workers sys))
  /\ (forall path seg, file sys path = Some seg -> seg ≠ []).

(** What the observers do with a new state. *)
Definition notified (s : AppState) (w : Workers) : Workers :=
  {| recorder := Recorder._handle_state_change s (recorder w);
     transcriber := Transcriber._handle_state_change s (transcriber w) |}.

(** *** The split at a silence boundary *)

(** The recorder is about to read [data] with the locals [frames] and
    [silent_chunks]; once [data] is read, the counter is at least the
    required count and the buffer holds more chunks than the counter
    says. *)
Definition split_due (sys : System) (data : Chunk) (frames : list Chunk)
    (silent_chunks : Z) : Prop :=
  capturing sys frames silent_chunks
  /\ Recorder.required_silent_chunks (recorder (workers sys))
     <= counted (recorder (workers sys)) data silent_chunks
  /\ counted (recorder (workers sys)) data silent_chunks
     < len (frames ++ [data]).

(** The split as the specification describes it: the buffer with [data]
    appended is a segment followed by its trailing silent run (as long as
    the counter says, and the chunk before it is not silent); the turn
    enqueues exactly that segment, and the run is the new buffer. *)
Definition split_done (sys : System) (now : Z) (data : Chunk)
    (frames : list Chunk) (silent_chunks : Z) : Prop :=
  let r := recorder (workers sys) in
  let k := counted r data silent_chunks in
  exists segment tail : list Chunk,
    frames ++ [data] = segment ++ tail
    /\ Forall (silent r) tail /\ len tail = k
    /\ (forall c, last segment = Some c -> speech r c)
    /\ enqueued_by sys (RecorderTurn now (Returned data)) = [Some segment]
    /\ capturing (step sys (RecorderTurn now (Returned data))) tail k.

(** *** Concrete data *)

(** Two samples at amplitude 1000, and two at amplitude 0 and 3. *)
Definition loud : Chunk := [1000; -1000].
Definition hush : Chunk := [0; 3].

(** A recorder whose required count is 0 (the count of a 0.0 s silence
    duration), switched to Recording. *)
Definition zero_count_recording : System :=
  run (boot (Recorder.fresh 48000 1024 300 0) [])
      [Call Activate; Call StartRecording].

(** A recorder whose required count is 2, switched to Recording, that has
    read one loud and one silent chunk. *)
Definition count_two_recording : System :=
  run (boot (Recorder.fresh 48000 1024 300 2) [])
      [Call Activate; Call StartRecording;
       RecorderTurn 1 (Returned loud); RecorderTurn 2 (Returned hush)].

(** *** The scenario of the specification *)

(** The recorder of [sys] has the threshold and the required count of
    [r0]. *)
Definition configured_as (r0 : Recorder.t) (sys : System) : Prop :=
  Recorder.silence_threshold (recorder (workers sys))
    = Recorder.silence_threshold r0
  /\ Recorder.required_silent_chunks (recorder (workers sys))
     = Recorder.required_silent_chunks r0.

Definition reading (r0 : Recorder.t) (sys : System) (frames : list Chunk)
    (silent_chunks : Z) : Prop :=
  capturing sys frames silent_chunks /\ configured_as r0 sys.

(** The recorder with the defaults of [__init__]. *)
Definition default_recorder : Recorder.t := Recorder.fresh 48000 1024 300 46.

(** The system is activated and set to record. *)
Definition started : System :=
  run (boot default_recorder []) [Call Activate; Call StartRecording].




(** *** Lifetimes *)

(** The recorder thread has left [run], normally or by an exception. *)
Definition recorder_gone (sys : System) : Prop :=
  forall frames k, rec_thread sys ≠ Recorder.Looping frames k.

Definition tr_thread (sys : System) : Transcriber.Thread :=
  Transcriber.thread (transcriber (workers sys)).

Definition transcriber_gone (sys : System) : Prop :=
  tr_thread sys ≠ Transcriber.Looping.

(** The transcriber is in its loop and allowed to process. *)
Definition transcribing (sys : System) : Prop :=
  Transcriber._terminate (transcriber (workers sys)) = false
  /\ Transcriber._process_allowed (transcriber (workers sys)) = true
  /\ tr_thread sys = Transcriber.Looping.

(** No event of the schedule moves the state machine out of [s]: its
    calls, if any, are illegal in [s]. *)
Definition stays_in (s : AppState) (schedule : list Event) : Prop :=
  Forall (fun ev => match ev with
                    | Call op => transition_table s op = None
                    | _ => True
                    end) schedule.

(** *** Read errors *)

(** The policy of the specification for a failing [stream.read], from a
    state in which the recorder reads: one failure leaves the loop running
    with its locals as they were; three failures in a row make the recorder
    flush its buffer and stop. *)
Definition read_errors_tolerated (sys : System) (now : Z) (e : exn) : Prop :=
  forall frames k,
    capturing sys frames k ->
    capturing (step sys (RecorderTurn now (Raised e))) frames k
    /\ recorder_gone (run sys (replicate 3 (RecorderTurn now (Raised e))))
    /\ enqueued sys (replicate 3 (RecorderTurn now (Raised e)))
       = match frames with [] => [] | _ :: _ => [Some frames] end.

(** The default recorder, recording, with one loud chunk in its buffer. *)
Definition one_chunk_buffered : System :=
  run started [RecorderTurn 1 (Returned loud)].

(** *** Leaving Recording *)

(** The recorder is in its loop and waits: it has been told neither to
    terminate nor to record, and its locals are [frames] and
    [silent_chunks]. *)
Definition holding (sys : System) (frames : list Chunk) (silent_chunks : Z)
  : Prop :=
  Recorder._terminate (recorder (workers sys)) = false
  /\ Recorder._recording (recorder (workers sys)) = false
  /\ rec_thread sys = Recorder.Looping frames silent_chunks.

(** A schedule in which the recorder has no turn. *)
Definition no_recorder_turn (schedule : list Event) : Prop :=
  Forall (fun ev => match ev with
                    | RecorderTurn _ _ => False
                    | _ => True
                    end) schedule.

(** The flush of the specification: from Recording, with chunks in the
    buffer, a call of [op] that leaves Recording for another state is
    followed, at the recorder's next turn, by the enqueueing of the buffer
    as one segment, after which no chunk is left in a buffer. *)
Definition flushes_on_leaving_recording (sys : System) (op : Op) (now : Z)
    (read : completion Chunk) : Prop :=
  forall frames k d,
    fsm_state sys = RECORDING -> capturing sys frames k -> frames ≠ [] ->
    transition_table RECORDING op = Some d -> d ≠ RECORDING ->
    enqueued sys [Call op; RecorderTurn now read] = [Some frames]
    /\ (forall frames' k',
          rec_thread (run sys [Call op; RecorderTurn now read])
            = Recorder.Looping frames' k' -> frames' = []).

(** *** Pause and resume *)

(** The pause of the specification: the machine is in Recording and the
    recorder in its loop with [frames] and [k]; [pause_recording] is
    called, the machine stays in Paused during [idle], and
    [start_recording] is called.  Then the recorder is in its loop with
    [frames] and [k]; and the segment enqueued next (after [later], which
    enqueues nothing, by [ev]) begins with [frames]. *)
Definition pause_keeps_segment_state (sys : System) (idle later : list Event)
    (ev : Event) : Prop :=
  forall frames k seg,
    fsm_state sys = RECORDING ->
    rec_thread sys = Recorder.Looping frames k ->
    stays_in PAUSED idle ->
    let resumed :=
      run sys (Call PauseRecording :: idle ++ [Call StartRecording]) in
    rec_thread resumed = Recorder.Looping frames k
    /\ (enqueued resumed later = [] ->
        enqueued_by (run resumed later) ev = [Some seg] ->
        frames `prefix_of` seg).

(** The default recorder with one loud chunk buffered, after the machine
    has gone to Inactive and back to Recording without a turn of the
    recorder in between. *)
Definition reactivated_unserved : System :=
  run one_chunk_buffered [Call Deactivate; Call Activate; Call StartRecording].

(** *** Reactivation *)

(** The lifetimes of the specification: after [deactivate] and whatever
    follows it in [between], both worker threads are still in their loops;
    and after [activate] and [start_recording] the recorder reads and the
    transcriber processes. *)
Definition workers_outlive_inactive (sys : System) (between : list Event)
  : Prop :=
  let inactive := run sys (Call Deactivate :: between) in
  let back := run inactive [Call Activate; Call StartRecording] in
  (exists frames k, rec_thread inactive = Recorder.Looping frames k)
  /\ tr_thread inactive = Transcriber.Looping
  /\ (exists frames k, capturing back frames k)
  /\ transcribing back.

(** *** An engine error *)

(** A recorder whose required count is 1 has read loud, silent, loud,
    silent: two segments are queued, written at the clock readings 2
    and 4. *)
Definition two_segments_queued : System :=
  run (boot (Recorder.fresh 48000 1024 300 1) [])
      [Call Activate; Call StartRecording;
       RecorderTurn 1 (Returned loud); RecorderTurn 2 (Returned hush);
       RecorderTurn 3 (Returned loud); RecorderTurn 4 (Returned hush)].

(** An observer in the manner of [KeyboardListener._handle_state_change]:
    on READY it starts its own thread, which raises when that thread was
    started before; it leaves the workers alone. *)
Definition keyboard_listener_callback : Callback Workers := fun s w =>
  (if decide (s = READY) then Raised RuntimeError else Returned (), w).

(* ------------------------------------------------------------------------- *)
(** ** Further vocabulary: observers, flags, audio, queue *)
(* ------------------------------------------------------------------------- *)

(** *** Observers that keep a log *)

(** A log of notifications: who was told which state, oldest first. *)
Definition Log : Type := list (nat * AppState).

(** The observer number [i]: it records the state it is given and then, if
    [raises], raises. *)
Definition logger (i : nat) (raises : bool) : Callback Log := fun s log =>
  (if raises then Raised RuntimeError else Returned (), log ++ [(i, s)]).

(** A manager in state [s] on which the observers [logger 0 b0],
    [logger 1 b1], ... have been registered in that order, one call of
    [on_state_change] each. *)
Definition observed_by (flags : list bool) (s : AppState) : StateManager Log :=
  foldl (fun sm cb => on_state_change cb sm) (mkStateManager s [])
        (imap logger flags).

(** One entry per observer, in registration order, all for state [d]. *)
Definition told (flags : list bool) (d : AppState) : Log :=
  imap (fun i _ => (i, d)) flags.

(** *** The flags of the workers *)

(** The operations called in a schedule, in order. *)
Definition calls (schedule : list Event) : list Op :=
  omap (fun ev => match ev with Call op => Some op | _ => None end) schedule.

(** The recorder calls [stream.read] in its next turn: it is in its loop,
    [_terminate] is clear and [_recording] is set. *)
Definition reads_audio (sys : System) : bool :=
  match rec_thread sys with
  | Recorder.Looping _ _ =>
      negb (Recorder._terminate (recorder (workers sys)))
      && Recorder._recording (recorder (workers sys))
  | _ => false
  end.

(** *** The audio that goes through the recorder *)

(** The chunk a step takes from the stream. *)
Definition read_by (sys : System) (ev : Event) : list Chunk :=
  match ev with
  | RecorderTurn _ (Returned data) => if reads_audio sys then [data] else []
  | _ => []
  end.

Fixpoint audio_read (sys : System) (schedule : list Event) : list Chunk :=
  match schedule with
  | [] => []
  | ev :: rest => read_by sys ev ++ audio_read (step sys ev) rest
  end.



(** *** The queue *)

(** The paths a step appends to the queue, and the paths it takes from its
    head. *)
Definition put_by (sys : System) (ev : Event) : list Z :=
  drop (length (queue sys)) (queue (step sys ev)).

Definition got_by (sys : System) (ev : Event) : list Z :=
  take (length (queue sys) - length (queue (step sys ev))) (queue sys).

Fixpoint all_put (sys : System) (schedule : list Event) : list Z :=
  match schedule with
  | [] => []
  | ev :: rest => put_by sys ev ++ all_put (step sys ev) rest
  end.

Fixpoint all_got (sys : System) (schedule : list Event) : list Z :=
  match schedule with
  | [] => []
  | ev :: rest => got_by sys ev ++ all_got (step sys ev) rest
  end.

(** *** What is typed *)


(** A recorder whose required count is 1, switched to Recording, that has
    read one loud chunk. *)
Definition count_one_recording : System :=
  run (boot (Recorder.fresh 48000 1024 300 1) [])
      [Call Activate; Call StartRecording; RecorderTurn 1 (Returned loud)].


(* ------------------------------------------------------------------------- *)
(** ** 7. KeyboardListener *)
(* ------------------------------------------------------------------------- *)

Module KeyboardListener.

(** The two hotkeys. *)
Inductive Key : Type := F8 | F9.

#[global] Instance Key_eq_dec : EqDecision Key.
Proof. solve_decision. Defined.

(** Where the thread is: not started; started, at the top of [run]; in the
    [while] loop, with both hotkeys added; past the end of [run]. *)
Inductive Thread : Type :=
  | Initial
  | Starting
  | Listening
  | Finished.

Record t : Type := mk {
  _should_stop : bool;
  thread : Thread
}.

(** [__init__] without the registration, which is done in [boot]. *)
Definition __init__ : t := {| _should_stop := false; thread := Initial |}.

Definition is_alive (self : t) : bool :=
  match thread self with
  | Starting | Listening => true
  | Initial | Finished => false
  end.

(** [Thread.start]: a thread can be started once; a second [start]
    raises RuntimeError. *)
Definition start (self : t) : completion unit * t :=
  match thread self with
  | Initial => (Returned (), mk (_should_stop self) Starting)
  | _ => (Raised RuntimeError, self)
  end.

Definition _handle_state_change (state : AppState) (self : t)
  : completion unit * t :=
  if bool_decide (state = READY) && negb (is_alive self) then start self
  else if bool_decide (state = INACTIVE)
       then (Returned (), mk true (thread self))
       else (Returned (), self).

(** The listener and the hotkeys that the [keyboard] library holds. *)
Record World : Type := mkWorld {
  listener : t;
  hotkeys : list Key
}.

(** [keyboard.remove_hotkey] *)
Definition remove_hotkey (key : Key) (keys : list Key) : list Key :=
  filter (fun k => k ≠ key) keys.

(** One turn of the thread: the two [add_hotkey] calls at the top of
    [run]; then, per turn, the loop test and either the sleep or, when
    [_should_stop] is set, the two [remove_hotkey] calls after the loop. *)
Definition turn (w : World) : World :=
  let self := listener w in
  match thread self with
  | Starting =>
      {| listener := mk (_should_stop self) Listening;
         hotkeys := hotkeys w ++ [F8; F9] |}
  | Listening =>
      if _should_stop self
      then {| listener := mk (_should_stop self) Finished;
              hotkeys := remove_hotkey F9 (remove_hotkey F8 (hotkeys w)) |}
      else w
  | Initial | Finished => w
  end.

(** The bound method registered with the manager. *)
Definition callback : Callback World := fun s w =>
  let '(c, l) := _handle_state_change s (listener w) in
  (c, {| listener := l; hotkeys := hotkeys w |}).

(** What a hotkey calls. *)
Definition hotkey_op (key : Key) : Op :=
  match key with
  | F8 => StartRecording
  | F9 => PauseRecording
  end.

(** The manager and the listener.  (The observers registered by the
    engine write to objects of their own.) *)
Record Desk : Type := mkDesk {
  manager : StateManager World;
  world : World
}.

(** [sm = StateManager(); kl = KeyboardListener(sm)] *)
Definition boot : Desk :=
  {| manager := on_state_change callback StateManager__init__;
     world := {| listener := __init__; hotkeys := [] |} |}.

(** A call of a transition by another thread, a key pressed by the user,
    a turn of the listener thread. *)
Inductive Action : Type :=
  | Called (op : Op)
  | Pressed (key : Key)
  | Turn.

Definition called (op : Op) (d : Desk) : Desk :=
  let '(_, (sm, w)) := call op (manager d) (world d) in
  {| manager := sm; world := w |}.

Definition act (d : Desk) (a : Action) : Desk :=
  match a with
  | Called op => called op d
  | Pressed key =>
      if bool_decide (key ∈ hotkeys (world d)) then called (hotkey_op key) d
      else d
  | Turn => {| manager := manager d; world := turn (world d) |}
  end.

Definition acts (d : Desk) (schedule : list Action) : Desk :=
  fold_left act schedule d.

(** The listener is the observer of the manager, and the hotkeys are
    registered exactly while the thread is in its loop. *)
Definition desk_ok (d : Desk) : Prop :=
  _callbacks (manager d) = [callback]
  /\ hotkeys (world d)
     = match thread (listener (world d)) with
       | Listening => [F8; F9]
       | _ => []
       end.

(** The listener in its loop once it has been notified of INACTIVE, and
    the listener once its thread has ended after that. *)
Definition stopping : World :=
  {| listener := mk true Listening; hotkeys := [F8; F9] |}.

Definition ended : World :=
  {| listener := mk true Finished; hotkeys := [] |}.

End KeyboardListener.

(* ------------------------------------------------------------------------- *)
(** ** The window of [gui_voice_typing.py] *)
(* ------------------------------------------------------------------------- *)

Module VoiceTypingGUI.

(** [state.name] *)
Definition name (s : AppState) : string :=
  match s with
  | INACTIVE => "INACTIVE"
  | READY => "READY"
  | RECORDING => "RECORDING"
  | PAUSED => "PAUSED"
  end.

(** The text of [lbl_state], whether each button is in state "normal"
    (it is "disabled" otherwise), and the updates that [root.after(0, ...)]
    has scheduled and Tk has not run yet, oldest first, each with the state
    it was made for. *)
Record t : Type := mk {
  lbl_state : string;
  btn_activate : bool;
  btn_deactivate : bool;
  pending : list AppState
}.

(** [_build_widgets]: a new button is in state "normal". *)
Definition _build_widgets : t :=
  {| lbl_state := "Estado: INATIVO";
     btn_activate := true;
     btn_deactivate := true;
     pending := [] |}.

(** The local function [update] of [_on_state_change]. *)
Definition update (state : AppState) (self : t) : t :=
  let text := ("Estado: " ++ name state)%string in
  if decide (state = INACTIVE)
  then mk text true false (pending self)
  else if bool_decide (state ∈ [READY; PAUSED])
  then mk text false true (pending self)
  else if decide (state = RECORDING)
  then mk text false true (pending self)
  else mk text (btn_activate self) (btn_deactivate self) (pending self).

(** [_on_state_change]: the update is scheduled, not run. *)
Definition _on_state_change (state : AppState) (self : t) : t :=
  mk (lbl_state self) (btn_activate self) (btn_deactivate self)
     (pending self ++ [state]).

Definition callback : Callback t := fun s self =>
  (Returned (), _on_state_change s self).

(** The manager and the window.  (The observers registered by the engine
    and by the keyboard listener write to objects of their own.) *)
Record Window : Type := mkWindow {
  state_manager : StateManager t;
  gui : t
}.

(** [__init__]: the widgets are built, the observer is registered, and
    [_on_state_change] is called once with the current state. *)
Definition __init__ : Window :=
  let sm := on_state_change callback StateManager__init__ in
  {| state_manager := sm;
     gui := _on_state_change (state sm) _build_widgets |}.

Inductive Button : Type := BtnActivate | BtnDeactivate.

(** A click on a button, a call of a transition from elsewhere (a hotkey),
    and Tk running the oldest scheduled update. *)
Inductive Action : Type :=
  | Clicked (b : Button)
  | Called (op : Op)
  | Idle.

Definition called (op : Op) (w : Window) : Window :=
  let '(_, (sm, g)) := call op (state_manager w) (gui w) in
  {| state_manager := sm; gui := g |}.

(** A disabled button does not run its command. *)
Definition act (w : Window) (a : Action) : Window :=
  match a with
  | Clicked BtnActivate =>
      if btn_activate (gui w) then called Activate w else w
  | Clicked BtnDeactivate =>
      if btn_deactivate (gui w) then called Deactivate w else w
  | Called op => called op w
  | Idle =>
      match pending (gui w) with
      | [] => w
      | s :: rest =>
          let g := gui w in
          {| state_manager := state_manager w;
             gui := update s (mk (lbl_state g) (btn_activate g)
                                 (btn_deactivate g) rest) |}
      end
  end.

Definition acts (w : Window) (schedule : list Action) : Window :=
  fold_left act schedule w.

(** What the window shows for state [s]. *)
Definition shows (s : AppState) (self : t) : Prop :=
  lbl_state self = ("Estado: " ++ name s)%string
  /\ btn_activate self = bool_decide (is_Some (transition_table s Activate))
  /\ btn_deactivate self
     = bool_decide (is_Some (transition_table s Deactivate)).

(** The window is the observer of the manager; and the update scheduled
    last, or the window as it is when none is scheduled, is for the state
    of the manager. *)
Definition window_ok (w : Window) : Prop :=
  _callbacks (state_manager w) = [callback]
  /\ match last (pending (gui w)) with
     | Some s => s = state (state_manager w)
     | None => shows (state (state_manager w)) (gui w)
     end.

End VoiceTypingGUI.


(** *** Clock readings *)

(** The clock readings of the recorder turns of a schedule, in order. *)
Definition clock (schedule : list Event) : list Z :=
  omap (fun ev => match ev with
                  | RecorderTurn now _ => Some now
                  | _ => None
                  end) schedule.


(* ========================================================================= *)
(** * Properties *)
(* ========================================================================= *)

(** ** Lists *)

Lemma last_cons_default {A} (l : list A) (d x : A) :
  List.last (d :: l) x = List.last l d.
Proof.
  revert d x. induction l as [|a l IH]; intros d x; [done|].
  change (List.last (a :: l) x = List.last (a :: l) d).
  by rewrite !IH.
Qed.

(** ** StateManager *)

Section StateManagerFacts.
Context {W : Type}.
Implicit Types (self : StateManager W) (w : W) (op : Op).

Lemma _notify_loop_returns (cbs : list (Callback W)) (st : AppState) w :
  (_notify_loop cbs st w).1 = Returned ().
Proof.
  revert w. induction cbs as [|cb rest IH]; intros w; simpl; [done|].
  destruct (cb st w) as [[[]|e] w']; simpl; apply IH.
Qed.

Lemma transition_to_spec (s : AppState) self w :
  exists w', transition_to s self w = (Returned (), (set_state self s, w')).
Proof.
  unfold transition_to, _notify.
  pose proof (_notify_loop_returns (_callbacks (set_state self s))
                (_state (set_state self s)) w) as H.
  destruct (_notify_loop _ _ w) as [c w']. simpl in H. subst c. eauto.
Qed.

(** A call whose operation the table has in the current state moves to
    the destination of the table. *)
Lemma call_legal op self w (d : AppState) :
  transition_table (_state self) op = Some d ->
  exists w', call op self w = (Returned (), (set_state self d, w')).
Proof.
  destruct self as [s cbs]; simpl.
  destruct op, s; simpl; intros [= <-];
    unfold activate, deactivate, start_recording, pause_recording, stop_app;
    simpl; apply transition_to_spec.
Qed.

(** A call whose operation is illegal in the current state changes
    nothing and returns. *)
Lemma call_illegal op self w :
  transition_table (_state self) op = None ->
  call op self w = (Returned (), (self, w)).
Proof.
  destruct self as [s cbs]; simpl.
  destruct op, s; simpl; intros [=]; reflexivity.
Qed.

Lemma call_all_from (ops : list Op) self w :
  Forall (eq (Returned ())) (call_all ops self w).1
  /\ _state (call_all ops self w).2.1
     = List.last (legal_destinations (_state self) ops) (_state self)
  /\ _callbacks (call_all ops self w).2.1 = _callbacks self.
Proof.
  revert self w. induction ops as [|op rest IH]; intros self w; simpl.
  { auto. }
  destruct (transition_table (_state self) op) as [d|] eqn:Ht.
  - destruct (call_legal op self w d Ht) as [w' ->].
    specialize (IH (set_state self d) w').
    destruct (call_all rest (set_state self d) w') as [cs [sm' w'']].
    simpl in *. destruct IH as (Hc & Hs & Hk). split; [|split].
    + by constructor.
    + rewrite Hs. symmetry. apply last_cons_default.
    + done.
  - rewrite (call_illegal op self w Ht).
    specialize (IH self w).
    destruct (call_all rest self w) as [cs [sm' w'']].
    simpl in *. destruct IH as (Hc & Hs & Hk). split; [|split]; [|done..].
    by constructor.
Qed.

(** C1.  Whatever observers are registered, and whatever they do, after
    any finite sequence of calls of activate, deactivate, start_recording,
    pause_recording and stop_app on a new manager: every call has
    returned, the state is one of the four states, and it is the
    destination of the last legal transition of the sequence read against
    the transition table (Inactive when there is none).  Moreover a call
    that is illegal in the state [s] of the manager returns and leaves the
    manager and the observers' data as they were. *)
Theorem state_is_destination_of_last_legal_transition
    (cbs : list (Callback W)) (w : W) (ops : list Op)
    (s : AppState) (op : Op) (w0 : W) :
  let final := call_all ops (mkStateManager INACTIVE cbs) w in
  Forall (eq (Returned ())) final.1
  /\ state final.2.1 ∈ [INACTIVE; READY; RECORDING; PAUSED]
  /\ state final.2.1 = List.last (legal_destinations INACTIVE ops) INACTIVE
  /\ (transition_table s op = None ->
      call op (mkStateManager s cbs) w0
      = (Returned (), (mkStateManager s cbs, w0))).
Proof.
  intros final.
  destruct (call_all_from ops (mkStateManager INACTIVE cbs) w)
    as (Hc & Hs & _).
  split; [exact Hc|]. split; [|split; [exact Hs|]].
  - destruct (state final.2.1); set_solver.
  - intros Ht. by apply call_illegal.
Qed.
End StateManagerFacts.

(** An instance: one observer that counts its notifications and raises
    every time. *)
Lemma state_is_destination_of_last_legal_transition_witness :
  let cbs : list (Callback nat) :=
    [fun _ w => (Raised RuntimeError, S w)] in
  let final :=
    call_all [Activate; PauseRecording; StartRecording; PauseRecording]
             (mkStateManager INACTIVE cbs) 0%nat in
  Forall (eq (Returned ())) final.1
  /\ state final.2.1 ∈ [INACTIVE; READY; RECORDING; PAUSED]
  /\ state final.2.1
     = List.last
         (legal_destinations INACTIVE
            [Activate; PauseRecording; StartRecording; PauseRecording])
         INACTIVE
  /\ call Activate (mkStateManager READY cbs) 7%nat
     = (Returned (), (mkStateManager READY cbs, 7%nat)).
Proof.
  intros cbs final.
  destruct (state_is_destination_of_last_legal_transition
              cbs 0%nat
              [Activate; PauseRecording; StartRecording; PauseRecording]
              READY Activate 7%nat) as (H1 & H2 & H3 & H4).
  split; [exact H1|]. split; [exact H2|]. split; [exact H3|].
  apply H4. reflexivity.
Defined.

(** ** Recorder.__init__ *)

Lemma pow2_pos (k : Z) : 0 <= k -> 0 < 2 ^ k.
Proof. intros. apply Z.pow_pos_nonneg; lia. Qed.

Lemma some_compare_gt (a b : Z) : Some (a ?= b) = Some Gt <-> b < a.
Proof.
  rewrite <- Z.compare_gt_iff. split; [by intros [= ->] | by intros ->].
Qed.

Lemma some_compare_lt (a b : Z) : Some (a ?= b) = Some Lt <-> a < b.
Proof.
  rewrite <- Z.compare_lt_iff. split; [by intros [= ->] | by intros ->].
Qed.

Lemma some_compare_not_gt (a b : Z) : Some (a ?= b) ≠ Some Gt <-> a <= b.
Proof. rewrite some_compare_gt. lia. Qed.

Lemma some_compare_not_lt (a b : Z) : Some (a ?= b) ≠ Some Lt <-> b <= a.
Proof. rewrite some_compare_lt. lia. Qed.

Ltac order_of_compare :=
  rewrite ?some_compare_gt, ?some_compare_lt,
          ?some_compare_not_gt, ?some_compare_not_lt in *.

(** [int()] drops the fraction. *)
Lemma py_int_truncation (y : float) (n : Z) :
  py_int y = Returned n -> truncation y n.
Proof.
  unfold truncation, py_int, compare_float_int, sign_bit.
  destruct y as [s|s| |s m e]; intros [= <-].
  - destruct s; order_of_compare; lia.
  - destruct (Z.leb_spec 0 e) as [He|He].
    + destruct s; unfold cond_Zopp; order_of_compare; lia.
    + assert (0 < 2 ^ (- e)) as Hk by (apply pow2_pos; lia).
      pose proof (Z.mul_div_le (Z.pos m) _ Hk) as H1.
      pose proof (Z.mul_succ_div_gt (Z.pos m) _ Hk) as H2.
      destruct s; unfold cond_Zopp; order_of_compare; nia.
Qed.

(** A count strictly between -1 and 1 is 0. *)
Lemma truncation_small (y : float) (n : Z) :
  truncation y n ->
  compare_float_int y 1 = Some Lt -> compare_float_int y (-1) = Some Gt ->
  n = 0.
Proof.
  unfold truncation, compare_float_int, sign_bit.
  destruct y as [s|s| |s m e].
  - destruct s; order_of_compare; lia.
  - destruct s; intros _ H1 H2; congruence.
  - intros _ H1; congruence.
  - destruct (Z.leb_spec 0 e) as [He|He]; destruct s; unfold cond_Zopp;
      order_of_compare; intros [H1 H2] H3 H4; try lia.
    all: assert (0 < 2 ^ (- e)) as Hk by (apply pow2_pos; lia); nia.
Qed.

Lemma init_of_quotient (sr cs thr : Z) (d y : float) :
  duration_in_chunks d sr cs = Returned y ->
  Recorder.__init__ sr cs thr d
  = n ← py_int y; Returned (Recorder.fresh sr cs thr n).
Proof.
  unfold duration_in_chunks, Recorder.__init__, mbind, completion_bind.
  destruct (float_mul_int d sr) as [x|e]; [|done].
  destruct (float_div_int x cs) as [y'|e]; [|done].
  by intros [= ->].
Qed.

(** C6, as amended.  The required-silence count is [int()] of the float
    [silence_duration * sample_rate / chunk_size]: the quotient with its
    fraction dropped (the floor of a quotient that is not negative), not its
    ceiling.  Whenever that quotient is a finite number the recorder is
    constructed, with that count and the other fields as given, its flags
    clear and its thread at the top of the loop with nothing buffered.  In
    particular a configuration whose quotient is strictly between -1 and 1
    is not rejected: the recorder is constructed with the count 0. *)
Theorem required_silent_chunks_truncates
    (sample_rate chunk_size threshold : Z) (silence_duration y : float)
    (sample_rate' chunk_size' threshold' : Z) (silence_duration' y' : float) :
  duration_in_chunks silence_duration sample_rate chunk_size = Returned y ->
  is_finite y = true ->
  duration_in_chunks silence_duration' sample_rate' chunk_size'
    = Returned y' ->
  compare_float_int y' 1 = Some Lt -> compare_float_int y' (-1) = Some Gt ->
  (exists n : Z,
     Recorder.__init__ sample_rate chunk_size threshold silence_duration
       = Returned (Recorder.fresh sample_rate chunk_size threshold n)
     /\ truncation y n)
  /\ Recorder.__init__ sample_rate' chunk_size' threshold' silence_duration'
     = Returned (Recorder.fresh sample_rate' chunk_size' threshold' 0).
Proof.
  intros Hq Hfin Hq' Hlt Hgt. split.
  - rewrite (init_of_quotient _ _ threshold _ _ Hq).
    destruct (py_int y) as [n|e] eqn:Hn.
    + exists n. split; [reflexivity|]. by apply py_int_truncation.
    + destruct y; simpl in *; congruence.
  - rewrite (init_of_quotient _ _ threshold' _ _ Hq').
    destruct (py_int y') as [n|e] eqn:Hn.
    + by rewrite (truncation_small y' n (py_int_truncation y' n Hn) Hlt Hgt).
    + destruct y'; simpl in *; congruence.
Qed.

(** At the defaults of [Recorder.__init__] the quotient is 46.875; with a
    duration of 0.0 s it is 0.0. *)
Lemma required_silent_chunks_truncates_witness :
  (exists n : Z,
     Recorder.__init__ 48000 1024 300 one
       = Returned (Recorder.fresh 48000 1024 300 n)
     /\ truncation (S754_finite false 6597069766656000 (-47)) n)
  /\ Recorder.__init__ 48000 1024 300 zero
     = Returned (Recorder.fresh 48000 1024 300 0).
Proof.
  apply (required_silent_chunks_truncates
           48000 1024 300 one (S754_finite false 6597069766656000 (-47))
           48000 1024 300 zero zero).
  - vm_compute. reflexivity.
  - reflexivity.
  - vm_compute. reflexivity.
  - reflexivity.
  - reflexivity.
Defined.

Example default_required_silent_chunks :
  Recorder.__init__ 48000 1024 300 one
  = Returned (Recorder.fresh 48000 1024 300 46).
Proof. vm_compute. reflexivity. Qed.

(** The count follows the rounding of the floats: the double 0.7 is below
    7/10, yet [0.7 * 10] rounds to 7.0 and the count is 7. *)
Example count_follows_float_rounding :
  let seven_tenths := S754_finite false 6305039478318694 (-53) in
  compare_float_int seven_tenths 1 = Some Lt
  /\ 6305039478318694 * 10 < 7 * 2 ^ 53
  /\ Recorder.__init__ 10 1 300 seven_tenths
     = Returned (Recorder.fresh 10 1 300 7).
Proof. cbv zeta. repeat split; vm_compute; reflexivity. Qed.

(** C6, as stated, fails.  At the defaults (1.0 s, 48000 Hz, 1024 samples)
    the recorder is constructed with the count 46 while the ceiling of
    46.875 is 47; and with a duration of 0.0 s the recorder is constructed
    although its count is 0. *)
Lemma ceil_count_or_rejected_fails :
  (¬ ceil_count_or_rejected 48000 1024 300 one
   /\ Recorder.__init__ 48000 1024 300 one
      = Returned (Recorder.fresh 48000 1024 300 46)
   /\ (duration_in_chunks one 48000 1024 ≫= py_ceil) = Returned 47)
  /\ (¬ ceil_count_or_rejected 48000 1024 300 zero
      /\ Recorder.__init__ 48000 1024 300 zero
         = Returned (Recorder.fresh 48000 1024 300 0)).
Proof.
  split; (split; [intros H|]).
  - destruct (H (Recorder.fresh 48000 1024 300 46)) as [H1 _].
    { vm_compute. reflexivity. }
    vm_compute in H1. congruence.
  - split; vm_compute; reflexivity.
  - destruct (H (Recorder.fresh 48000 1024 300 0)) as [_ H2].
    { vm_compute. reflexivity. }
    by apply H2.
  - vm_compute. reflexivity.
Qed.

(** ** Slices *)

Lemma len_app {A} (l k : list A) : len (l ++ k) = len l + len k.
Proof. unfold len. rewrite length_app. lia. Qed.

Lemma len_nonneg {A} (l : list A) : 0 <= len l.
Proof. unfold len. lia. Qed.

Lemma slice_to_0 {A} (l : list A) : slice_to l 0 = [].
Proof.
  unfold slice_to, slice_bound. simpl.
  rewrite Z.min_l by apply len_nonneg. by rewrite take_0.
Qed.

Lemma slice_from_0 {A} (l : list A) : slice_from l 0 = l.
Proof.
  unfold slice_from, slice_bound. simpl.
  rewrite Z.min_l by apply len_nonneg. by rewrite drop_0.
Qed.

Lemma slice_bound_tail {A} (seg tail : list A) :
  tail ≠ [] ->
  Z.to_nat (slice_bound (len (seg ++ tail)) (- len tail)) = length seg.
Proof.
  intros Hne. unfold slice_bound. rewrite len_app.
  assert (0 < len tail).
  { destruct tail; [done|]. unfold len. simpl. lia. }
  destruct (Z.ltb_spec (- len tail) 0); [|lia].
  pose proof (len_nonneg seg). unfold len in *. lia.
Qed.

(** [(seg ++ tail)[:-len(tail)]] *)
Lemma slice_to_tail {A} (seg tail : list A) :
  tail ≠ [] -> slice_to (seg ++ tail) (- len tail) = seg.
Proof.
  intros Hne. unfold slice_to. rewrite slice_bound_tail by done.
  apply take_app_length.
Qed.

(** [(seg ++ tail)[-len(tail):]] *)
Lemma slice_from_tail {A} (seg tail : list A) :
  tail ≠ [] -> slice_from (seg ++ tail) (- len tail) = tail.
Proof.
  intros Hne. unfold slice_from. rewrite slice_bound_tail by done.
  apply drop_app_length.
Qed.

(** ** Schedules *)

Lemma run_app (sys : System) (a b : list Event) :
  run sys (a ++ b) = run (run sys a) b.
Proof. apply fold_left_app. Qed.

Lemma run_cons (sys : System) (ev : Event) (rest : list Event) :
  run sys (ev :: rest) = run (step sys ev) rest.
Proof. reflexivity. Qed.

Lemma run_one (sys : System) (ev : Event) : run sys [ev] = step sys ev.
Proof. reflexivity. Qed.

Lemma run_snoc (sys : System) (a : list Event) (ev : Event) :
  run sys (a ++ [ev]) = step (run sys a) ev.
Proof. by rewrite run_app. Qed.

Lemma enqueued_app (sys : System) (a b : list Event) :
  enqueued sys (a ++ b) = enqueued sys a ++ enqueued (run sys a) b.
Proof.
  revert sys. induction a as [|ev a IH]; intros sys; simpl; [done|].
  by rewrite IH, app_assoc.
Qed.

Lemma enqueued_cons (sys : System) (ev : Event) (rest : list Event) :
  enqueued sys (ev :: rest) = enqueued_by sys ev ++ enqueued (step sys ev) rest.
Proof. reflexivity. Qed.

Lemma enqueued_one (sys : System) (ev : Event) :
  enqueued sys [ev] = enqueued_by sys ev.
Proof. simpl. apply app_nil_r. Qed.

(** ** Calls in the wired system *)

Lemma _notify_loop_passive (cbs : list (Callback Workers)) (st : AppState)
    (w : Workers) :
  Forall passive cbs -> _notify_loop cbs st w = (Returned (), w).
Proof.
  induction 1 as [|cb rest Hcb _ IH]; [done|]. simpl.
  specialize (Hcb st w). destruct (cb st w) as [[[]|e] w']; simpl in *;
    by subst w'.
Qed.

Lemma call_wired (op : Op) (self : StateManager Workers) (w : Workers)
    (others : list (Callback Workers)) :
  _callbacks self = recorder_callback :: transcriber_callback :: others ->
  Forall passive others ->
  call op self w
  = (Returned (),
     match transition_table (_state self) op with
     | Some d => (set_state self d, notified d w)
     | None => (self, w)
     end).
Proof.
  intros Hw Hp. destruct (transition_table (_state self) op) as [d|] eqn:Ht.
  - assert (transition_to d self w
            = (Returned (), (set_state self d, notified d w))) as Hto.
    { unfold transition_to, _notify. simpl. rewrite Hw. simpl.
      by rewrite (_notify_loop_passive others d _ Hp). }
    destruct self as [s cbs]; simpl in *.
    destruct op, s; simpl in Ht; try discriminate; injection Ht as <-;
      exact Hto.
  - by apply call_illegal.
Qed.

(** A call acts on the system as the table says: a legal one moves the
    manager and notifies both workers, an illegal one does nothing. *)
Lemma step_call (sys : System) (op : Op) :
  wired sys ->
  step sys (Call op)
  = match transition_table (fsm_state sys) op with
    | Some d =>
        {| state_manager := set_state (state_manager sys) d;
           workers := notified d (workers sys);
           store := store sys; typed := typed sys |}
    | None => sys
    end.
Proof.
  intros (others & Hw & Hp). unfold step.
  rewrite (call_wired op _ _ others Hw Hp).
  unfold fsm_state, state.
  destruct (transition_table _ op); [done|]. by destruct sys.
Qed.

(** ** One turn of the recorder *)

Lemma is_silent_threshold (r r' : Recorder.t) (c : Chunk) :
  Recorder.silence_threshold r' = Recorder.silence_threshold r ->
  Recorder.is_silent r' c = Recorder.is_silent r c.
Proof. unfold Recorder.is_silent. by intros ->. Qed.

Lemma trailing_silence_threshold (r r' : Recorder.t) frames k :
  Recorder.silence_threshold r' = Recorder.silence_threshold r ->
  trailing_silence r frames k -> trailing_silence r' frames k.
Proof.
  intros Hc (pre & tail & -> & Hlen & Hs & Hp).
  exists pre, tail. repeat split; [done| |].
  - eapply Forall_impl; [exact Hs|]. intros c Hc'. unfold silent in *.
    by rewrite (is_silent_threshold r r').
  - intros c Hl. unfold speech. rewrite (is_silent_threshold r r') by done.
    by apply Hp.
Qed.

(** The observer touches the two flags only. *)
Lemma handle_state_change_fields (s : AppState) (r : Recorder.t) :
  Recorder.thread (Recorder._handle_state_change s r) = Recorder.thread r
  /\ Recorder.silence_threshold (Recorder._handle_state_change s r)
     = Recorder.silence_threshold r
  /\ Recorder.required_silent_chunks (Recorder._handle_state_change s r)
     = Recorder.required_silent_chunks r
  /\ Recorder._recording (Recorder._handle_state_change s r)
     = bool_decide (s = RECORDING)
  /\ Recorder._terminate (Recorder._handle_state_change s r)
     = Recorder._terminate r || bool_decide (s = INACTIVE).
Proof. destruct s, r as [? ? ? ? [] ? ?]; done. Qed.

(** Reading one more chunk keeps the shape of the buffer: it ends with as
    many silent chunks as the counter says. *)
Lemma trailing_silence_read (r : Recorder.t) frames k (data : Chunk) :
  trailing_silence r frames k ->
  trailing_silence r (frames ++ [data]) (counted r data k).
Proof.
  intros (pre & tail & -> & Hlen & Hs & Hp). unfold counted.
  destruct (Recorder.is_silent r data) eqn:Hd.
  - exists pre, (tail ++ [data]). rewrite app_assoc, len_app.
    repeat split; [unfold len in *; simpl; lia| |done].
    apply Forall_app. split; [done|]. by constructor.
  - exists ((pre ++ tail) ++ [data]), []. rewrite app_nil_r.
    repeat split; [constructor|].
    intros c. rewrite last_snoc. by intros [= <-].
Qed.

(** A buffer longer than its trailing run of [k >= 1] silent chunks splits
    into a part that ends with speech and the run; the two slices of the
    loop body are these parts. *)
Lemma trailing_silence_split (r : Recorder.t) buffer k :
  trailing_silence r buffer k -> 1 <= k -> k < len buffer ->
  exists seg c tail,
    buffer = (seg ++ [c]) ++ tail /\ speech r c
    /\ len tail = k /\ Forall (silent r) tail
    /\ slice_to buffer (- k) = seg ++ [c]
    /\ slice_from buffer (- k) = tail.
Proof.
  intros (pre & tail & -> & Hlen & Hs & Hp) Hk Hlt.
  assert (tail ≠ []) as Hne.
  { intros ->. unfold len in Hlen. simpl in Hlen. lia. }
  destruct (last pre) as [c|] eqn:Hl.
  - specialize (Hp c eq_refl).
    apply last_Some in Hl as [seg ->]. exists seg, c, tail.
    subst k. by rewrite slice_to_tail, slice_from_tail.
  - apply last_None in Hl as ->. simpl in Hlt. lia.
Qed.

Lemma write_and_put_queue now seg st :
  audio_queue (Recorder.write_and_put now seg st) = audio_queue st ++ [now].
Proof. reflexivity. Qed.

Lemma write_and_put_files now seg st :
  files (Recorder.write_and_put now seg st) = <[now := seg]> (files st).
Proof. reflexivity. Qed.

(** The body of the loop when a chunk is read. *)
Lemma turn_read now data (r : Recorder.t) st frames k :
  Recorder._terminate r = false -> Recorder._recording r = true ->
  Recorder.thread r = Recorder.Looping frames k ->
  Recorder.turn now (Returned data) r st
  = let k' := counted r data k in
    let buffer := frames ++ [data] in
    if (Recorder.required_silent_chunks r <=? k') && (k' <? len buffer)
    then (Recorder.set_thread
            (Recorder.Looping (slice_from buffer (- k')) k') r,
          match slice_to buffer (- k') with
          | [] => st
          | _ :: _ => Recorder.write_and_put now (slice_to buffer (- k')) st
          end)
    else (Recorder.set_thread (Recorder.Looping buffer k') r, st).
Proof. intros Ht Hr Hth. unfold Recorder.turn. by rewrite Hth, Ht, Hr. Qed.

(** The code after the loop. *)
Lemma turn_terminate now read (r : Recorder.t) st frames k :
  Recorder._terminate r = true ->
  Recorder.thread r = Recorder.Looping frames k ->
  Recorder.turn now read r st
  = (Recorder.set_thread Recorder.Finished r,
     match frames with
     | [] => st
     | _ :: _ => Recorder.write_and_put now frames st
     end).
Proof. intros Ht Hth. unfold Recorder.turn. by rewrite Hth, Ht. Qed.

(** The wait for a request to record. *)
Lemma turn_idle now read (r : Recorder.t) st frames k :
  Recorder._terminate r = false -> Recorder._recording r = false ->
  Recorder.thread r = Recorder.Looping frames k ->
  Recorder.turn now read r st = (r, st).
Proof. intros Ht Hr Hth. unfold Recorder.turn. by rewrite Hth, Ht, Hr. Qed.

(** A failing read. *)
Lemma turn_read_error now e (r : Recorder.t) st frames k :
  Recorder._terminate r = false -> Recorder._recording r = true ->
  Recorder.thread r = Recorder.Looping frames k ->
  Recorder.turn now (Raised e) r st
  = (Recorder.set_thread (Recorder.Crashed e) r, st).
Proof. intros Ht Hr Hth. unfold Recorder.turn. by rewrite Hth, Ht, Hr. Qed.

(** A thread that has left [run] does nothing. *)
Lemma turn_gone now read (r : Recorder.t) st :
  (forall frames k, Recorder.thread r ≠ Recorder.Looping frames k) ->
  Recorder.turn now read r st = (r, st).
Proof.
  intros H. unfold Recorder.turn.
  destruct (Recorder.thread r) as [frames k| |e]; [by destruct (H frames k)|done..].
Qed.

(** A turn changes neither the configuration nor the flags. *)
Lemma turn_fields now read (r : Recorder.t) st :
  let r' := (Recorder.turn now read r st).1 in
  Recorder.silence_threshold r' = Recorder.silence_threshold r
  /\ Recorder.required_silent_chunks r' = Recorder.required_silent_chunks r
  /\ Recorder._terminate r' = Recorder._terminate r
  /\ Recorder._recording r' = Recorder._recording r.
Proof.
  unfold Recorder.turn.
  destruct r as [sr cs thr req term rec [frames k| |e]]; simpl; [|done..].
  destruct term; [done|]. destruct rec; [|done].
  destruct read as [data|e]; [|done]. simpl.
  by destruct (_ && _).
Qed.

(** What a turn does to the store: nothing, or one file written, not
    empty, and its path put at the back of the queue. *)
Lemma turn_store now read (r : Recorder.t) st :
  let st' := (Recorder.turn now read r st).2 in
  st' = st
  \/ exists seg, seg ≠ [] /\ st' = Recorder.write_and_put now seg st.
Proof.
  unfold Recorder.turn.
  destruct (Recorder.thread r) as [frames k| |e]; [|by left..].
  destruct (Recorder._terminate r).
  { destruct frames as [|c frames]; [by left|]. right. eexists. split; [|reflexivity]. done. }
  destruct (Recorder._recording r); [|by left].
  destruct read as [data|e]; [|by left]. cbv zeta.
  destruct (_ && _); [|by left]. simpl.
  destruct (slice_to _ _) as [|c seg] eqn:Hs; [by left|].
  right. eexists. split; [|reflexivity]. done.
Qed.

Lemma trailing_silence_nonneg (r : Recorder.t) frames k :
  trailing_silence r frames k -> 0 <= k.
Proof. intros (pre & tail & _ & <- & _). apply len_nonneg. Qed.

Lemma trailing_silence_all (r : Recorder.t) (tail : list Chunk) :
  Forall (silent r) tail -> trailing_silence r tail (len tail).
Proof. intros Hs. exists [], tail. repeat split; [done|]. by intros c [=]. Qed.

(** The shape of the buffer survives a turn. *)
Lemma turn_buffer_shape now read (r : Recorder.t) st :
  buffer_shape r -> buffer_shape (Recorder.turn now read r st).1.
Proof.
  unfold buffer_shape, Recorder.turn.
  destruct (Recorder.thread r) as [frames k| |e] eqn:Hth;
    [|simpl; by rewrite Hth..].
  intros Hshape.
  destruct (Recorder._terminate r); [done|].
  destruct (Recorder._recording r); simpl; [|by rewrite Hth].
  destruct read as [data|e]; [|done].
  pose proof (trailing_silence_read r frames k data Hshape) as Hread.
  fold (counted r data k). set (k' := counted r data k) in *.
  set (buffer := frames ++ [data]) in *.
  destruct (_ && _) eqn:Hcond; simpl;
    (eapply trailing_silence_threshold; [reflexivity|]); [|done].
  apply andb_true_iff in Hcond as [_ Hlt%Z.ltb_lt].
  pose proof (trailing_silence_nonneg _ _ _ Hread) as Hk.
  destruct (decide (k' = 0)) as [->|Hnz].
  - by rewrite slice_from_0.
  - destruct (trailing_silence_split r buffer k' Hread) as
      (seg & c & tail & _ & _ & <- & Hs & _ & ->); [lia|done|].
    by apply trailing_silence_all.
Qed.

(** ** One turn of the transcriber *)

(** The transcriber writes no file: it removes one or leaves the directory
    as it is; and it adds nothing to the queue. *)
Lemma transcriber_turn_store transcribed (t : Transcriber.t) st ty :
  let st' := (Transcriber.turn transcribed t st ty).1.2 in
  (st' = st
   \/ exists audio_file rest,
        audio_queue st = audio_file :: rest
        /\ st' = os_remove audio_file
                   {| files := files st; audio_queue := rest |}).
Proof.
  unfold Transcriber.turn.
  destruct (Transcriber.thread t); [|by left..].
  destruct (Transcriber._terminate t); [by left|].
  destruct (Transcriber._process_allowed t); simpl; [|by left].
  destruct (audio_queue st) as [|audio_file rest] eqn:Hq; [by left|].
  right. exists audio_file, rest. split; [done|].
  destruct transcribed as [result|e]; [|done].
  by destruct (decide (strip result = EmptyString)).
Qed.

(** ** The invariant *)

Lemma callbacks_register_all (cbs : list (Callback Workers))
    (sm : StateManager Workers) :
  _callbacks (register_all cbs sm) = _callbacks sm ++ cbs.
Proof.
  revert sm. induction cbs as [|cb rest IH]; intros sm; simpl.
  - by rewrite app_nil_r.
  - rewrite IH. simpl. by rewrite <- app_assoc.
Qed.

Lemma consistent_boot (r : Recorder.t) (others : list (Callback Workers)) :
  Forall passive others ->
  Recorder.thread r = Recorder.Looping [] 0 -> consistent (boot r others).
Proof.
  intros Hp Hth. split; [|split].
  - exists others. split; [|done]. unfold boot. simpl.
    by rewrite callbacks_register_all.
  - unfold buffer_shape. simpl. rewrite Hth.
    by apply (trailing_silence_all r []).
  - intros path seg. unfold file. simpl. by rewrite lookup_empty.
Qed.

Lemma consistent_step (sys : System) (ev : Event) :
  consistent sys -> consistent (step sys ev).
Proof.
  intros (Hw & Hshape & Hfiles). destruct ev as [op|now read|transcribed].
  - rewrite step_call by done.
    destruct (transition_table (fsm_state sys) op) as [d|]; [|done].
    split; [done|]. split; [|done]. simpl.
    destruct (handle_state_change_fields d (recorder (workers sys)))
      as (Hth & Hthr & _).
    unfold buffer_shape in *. rewrite Hth.
    destruct (Recorder.thread _); [|done..].
    by apply (trailing_silence_threshold (recorder (workers sys))).
  - unfold step.
    pose proof (turn_buffer_shape now read _ (store sys) Hshape) as Hs'.
    pose proof (turn_store now read (recorder (workers sys)) (store sys))
      as Hst.
    destruct (Recorder.turn now read _ _) as [r' st']. simpl in *.
    split; [done|]. split; [done|].
    intros path seg. unfold file in *. simpl.
    destruct Hst as [->|(seg' & Hne & ->)]; [apply Hfiles|].
    rewrite write_and_put_files, lookup_insert.
    case_decide; [by intros [= <-]|apply Hfiles].
  - unfold step.
    pose proof (transcriber_turn_store transcribed
                  (transcriber (workers sys)) (store sys) (typed sys)) as Hst.
    destruct (Transcriber.turn _ _ _ _) as [[t' st'] ty']. simpl in *.
    split; [done|]. split; [done|].
    intros path seg. unfold file in *. simpl.
    destruct Hst as [->|(f & rest & _ & ->)]; [apply Hfiles|]. simpl.
    rewrite lookup_delete. case_decide; [done|apply Hfiles].
Qed.

Lemma consistent_run (sys : System) (schedule : list Event) :
  consistent sys -> consistent (run sys schedule).
Proof.
  revert sys. induction schedule as [|ev rest IH]; intros sys H; [done|].
  rewrite run_cons. by apply IH, consistent_step.
Qed.

(** ** What a step enqueues *)

Lemma drop_length_app {A} (l k : list A) : drop (length l) (l ++ k) = k.
Proof. apply drop_app_length. Qed.

(** A call enqueues nothing. *)
Lemma enqueued_by_call (sys : System) (op : Op) :
  enqueued_by sys (Call op) = [].
Proof.
  unfold enqueued_by, queue, step.
  destruct (call op _ _) as [c [sm w]]. simpl. by rewrite drop_all.
Qed.

(** A turn of the transcriber enqueues nothing. *)
Lemma enqueued_by_transcriber (sys : System) transcribed :
  enqueued_by sys (TranscriberTurn transcribed) = [].
Proof.
  unfold enqueued_by, queue, step.
  pose proof (transcriber_turn_store transcribed
                (transcriber (workers sys)) (store sys) (typed sys)) as Hst.
  destruct (Transcriber.turn _ _ _ _) as [[t' st'] ty']. simpl in *.
  destruct Hst as [->|(f & rest & Hq & ->)]; [by rewrite drop_all|].
  simpl. rewrite Hq. simpl. by rewrite drop_ge by lia.
Qed.

(** A turn of the recorder enqueues nothing, or one segment that is not
    empty. *)
Lemma enqueued_by_recorder (sys : System) now read :
  enqueued_by sys (RecorderTurn now read) = []
  \/ exists seg, seg ≠ []
       /\ enqueued_by sys (RecorderTurn now read) = [Some seg]
       /\ store (step sys (RecorderTurn now read))
          = Recorder.write_and_put now seg (store sys).
Proof.
  unfold enqueued_by, queue, file, step.
  pose proof (turn_store now read (recorder (workers sys)) (store sys))
    as Hst.
  destruct (Recorder.turn now read _ _) as [r' st']. simpl in *.
  destruct Hst as [->|(seg & Hne & ->)]; [left; by rewrite drop_all|].
  right. exists seg. split; [done|].
  rewrite write_and_put_queue, drop_length_app, write_and_put_files.
  simpl. by rewrite lookup_insert_eq.
Qed.

(** At every moment every file of the temporary directory holds at least
    one chunk. *)
Lemma no_empty_file (r : Recorder.t) (others : list (Callback Workers))
    (schedule : list Event) (path : Z) (seg : Segment) :
  Forall passive others -> Recorder.thread r = Recorder.Looping [] 0 ->
  file (run (boot r others) schedule) path = Some seg -> seg ≠ [].
Proof.
  intros Hp Hth.
  assert (consistent (run (boot r others) schedule)) as (_ & _ & Hfiles)
    by (by apply consistent_run, consistent_boot).
  apply Hfiles.
Qed.

(** C9.  From any state of the system -- so whatever the configuration of
    the recorder and whatever observers are registered -- whatever chunks
    are read and however the calls of the state machine and the turns of
    the two workers are interleaved: every segment the collector enqueues,
    at a silence boundary or in the final flush, is a file that exists and
    holds at least one chunk. *)
Theorem no_empty_segment_enqueued (sys : System) (schedule : list Event) :
  Forall (fun o => exists seg : Segment, o = Some seg /\ seg ≠ [])
         (enqueued sys schedule).
Proof.
  revert sys. induction schedule as [|ev rest IH]; intros sys; simpl;
    [constructor|].
  apply Forall_app. split; [|apply IH].
  destruct ev as [op|now read|transcribed].
  - rewrite enqueued_by_call. constructor.
  - destruct (enqueued_by_recorder sys now read)
      as [->|(seg & Hne & -> & _)]; [constructor|].
    constructor; [by exists seg|constructor].
  - rewrite enqueued_by_transcriber. constructor.
Qed.

Example segments_of_a_run :
  enqueued (boot (Recorder.fresh 48000 1024 300 1) [keyboard_listener_callback])
    [Call Activate; Call StartRecording;
     RecorderTurn 1 (Returned loud); RecorderTurn 2 (Returned hush);
     TranscriberTurn (Returned "oi"%string);
     RecorderTurn 3 (Returned loud); Call StopApp;
     RecorderTurn 4 (Raised OSError)]
  = [Some [loud]; Some [hush; loud]].
Proof. vm_compute. reflexivity. Qed.

(** ** A chunk is read *)

Lemma step_recorder (sys : System) now read :
  step sys (RecorderTurn now read)
  = {| state_manager := state_manager sys;
       workers :=
         {| recorder :=
              (Recorder.turn now read (recorder (workers sys)) (store sys)).1;
            transcriber := transcriber (workers sys) |};
       store :=
         (Recorder.turn now read (recorder (workers sys)) (store sys)).2;
       typed := typed sys |}.
Proof. unfold step. by destruct (Recorder.turn _ _ _ _). Qed.

Lemma enqueued_by_same_store (sys : System) (ev : Event) :
  store (step sys ev) = store sys -> enqueued_by sys ev = [].
Proof. intros H. unfold enqueued_by, queue. by rewrite H, drop_all. Qed.

Lemma enqueued_by_write (sys : System) (ev : Event) now seg :
  store (step sys ev) = Recorder.write_and_put now seg (store sys) ->
  enqueued_by sys ev = [Some seg].
Proof.
  intros H. unfold enqueued_by, queue, file. rewrite H.
  rewrite write_and_put_queue, drop_length_app, write_and_put_files.
  simpl. by rewrite lookup_insert_eq.
Qed.

(** The read that does not split: the chunk joins the buffer, nothing is
    enqueued. *)
Lemma step_read_append (sys : System) now data frames k :
  capturing sys frames k ->
  let r := recorder (workers sys) in
  ¬ (Recorder.required_silent_chunks r <= counted r data k
     /\ counted r data k < len (frames ++ [data])) ->
  capturing (step sys (RecorderTurn now (Returned data)))
            (frames ++ [data]) (counted r data k)
  /\ enqueued_by sys (RecorderTurn now (Returned data)) = [].
Proof.
  intros (Ht & Hr & Hth) r Hcond.
  assert ((Recorder.required_silent_chunks r <=? counted r data k)
          && (counted r data k <? len (frames ++ [data])) = false) as Hb.
  { apply not_true_is_false. rewrite andb_true_iff, Z.leb_le, Z.ltb_lt.
    exact Hcond. }
  pose proof (turn_read now data r (store sys) frames k Ht Hr Hth) as Hturn.
  cbv zeta in Hturn. rewrite Hb in Hturn. split.
  - rewrite step_recorder. unfold capturing, rec_thread. simpl.
    fold r. by rewrite Hturn.
  - apply enqueued_by_same_store. rewrite step_recorder. simpl.
    fold r. by rewrite Hturn.
Qed.

(** The read that splits, with a counter of at least 1. *)
Lemma step_read_split (sys : System) now data frames k seg tail :
  capturing sys frames k ->
  let r := recorder (workers sys) in
  Recorder.required_silent_chunks r <= counted r data k ->
  counted r data k < len (frames ++ [data]) ->
  frames ++ [data] = seg ++ tail ->
  len tail = counted r data k -> tail ≠ [] -> seg ≠ [] ->
  capturing (step sys (RecorderTurn now (Returned data)))
            tail (counted r data k)
  /\ enqueued_by sys (RecorderTurn now (Returned data)) = [Some seg].
Proof.
  intros (Ht & Hr & Hth) r Hreq Hlt Hbuf Hlen Htail Hseg.
  assert ((Recorder.required_silent_chunks r <=? counted r data k)
          && (counted r data k <? len (frames ++ [data])) = true) as Hb.
  { rewrite andb_true_iff, Z.leb_le, Z.ltb_lt. done. }
  pose proof (turn_read now data r (store sys) frames k Ht Hr Hth) as Hturn.
  cbv zeta in Hturn. rewrite Hb, Hbuf, <- Hlen in Hturn.
  rewrite slice_to_tail, slice_from_tail in Hturn by done.
  destruct seg as [|c seg]; [done|]. rewrite Hlen in Hturn. split.
  - rewrite step_recorder. unfold capturing, rec_thread. simpl.
    fold r. by rewrite Hturn.
  - apply (enqueued_by_write _ _ now). rewrite step_recorder. simpl.
    fold r. by rewrite Hturn.
Qed.

Lemma reachable_consistent (sr cs thr n : Z)
    (others : list (Callback Workers)) (schedule : list Event) :
  Forall passive others ->
  consistent (run (boot (Recorder.fresh sr cs thr n) others) schedule).
Proof. intros Hp. by apply consistent_run, consistent_boot. Qed.

(** C8, as amended.  In every state the system can reach, for every
    configuration: when, with the chunk just read, the counter of
    consecutive silent chunks is at least 1 and at least the required
    count, and the buffer holds more chunks than the counter says, the turn
    enqueues exactly one segment: the buffered chunks, the new one
    included, up to but without the trailing silent run; that run -- as
    many chunks as the counter says, all silent, preceded by a chunk that
    is not -- is the new buffer, and the counter is kept. *)
Theorem split_emits_up_to_trailing_silence
    (sample_rate chunk_size threshold n : Z)
    (others : list (Callback Workers)) (schedule : list Event)
    (now : Z) (data : Chunk) (frames : list Chunk) (silent_chunks : Z) :
  let sys :=
    run (boot (Recorder.fresh sample_rate chunk_size threshold n) others)
        schedule in
  Forall passive others ->
  split_due sys data frames silent_chunks ->
  1 <= counted (recorder (workers sys)) data silent_chunks ->
  split_done sys now data frames silent_chunks.
Proof.
  intros sys Hp (Hcap & Hreq & Hlt) Hk.
  destruct (reachable_consistent sample_rate chunk_size threshold n others
              schedule Hp) as (_ & Hshape & _). fold sys in Hshape.
  unfold buffer_shape in Hshape.
  destruct Hcap as (Ht & Hr & Hth). unfold rec_thread in Hth.
  rewrite Hth in Hshape.
  pose proof (trailing_silence_read _ _ _ data Hshape) as Hread.
  destruct (trailing_silence_split _ _ _ Hread Hk Hlt)
    as (seg & c & tail & Hbuf & Hc & Hlen & Hs & _ & _).
  assert (tail ≠ []) as Htail.
  { intros ->. unfold len in Hlen. simpl in Hlen. lia. }
  destruct (step_read_split sys now data frames silent_chunks
              (seg ++ [c]) tail) as [Hcap' Henq]; try done.
  { by destruct seg. }
  exists (seg ++ [c]), tail.
  split; [done|]. split; [done|]. split; [done|]. split; [|done].
  intros c'. rewrite last_snoc. by intros [= <-].
Qed.

Ltac by_evaluation :=
  vm_compute; first [reflexivity | discriminate | congruence].

Lemma split_emits_up_to_trailing_silence_witness :
  split_done count_two_recording 3 hush [loud; hush] 1.
Proof.
  apply (split_emits_up_to_trailing_silence 48000 1024 300 2 []
           [Call Activate; Call StartRecording;
            RecorderTurn 1 (Returned loud); RecorderTurn 2 (Returned hush)]
           3 hush [loud; hush] 1).
  - constructor.
  - split; [|split]; [|by_evaluation..].
    split; [|split]; by_evaluation.
  - by_evaluation.
Defined.

(** C8, as stated, fails when the counter is 0.  With a required count of
    0, the first chunk read is loud: the counter is 0, which is the
    required count, and the buffer holds one chunk, more than the counter
    says; yet nothing is enqueued and the chunk stays in the buffer
    ([frames[:-0]] is empty and [frames[-0:]] is the whole list). *)
Lemma split_with_counter_zero_emits_nothing :
  split_due zero_count_recording loud [] 0
  /\ ¬ split_done zero_count_recording 7 loud [] 0
  /\ enqueued_by zero_count_recording (RecorderTurn 7 (Returned loud)) = []
  /\ rec_thread (step zero_count_recording (RecorderTurn 7 (Returned loud)))
     = Recorder.Looping [loud] 0.
Proof.
  split; [|split; [|split]].
  - split; [|split]; [|by_evaluation..].
    split; [|split]; by_evaluation.
  - intros (segment & tail & _ & _ & _ & _ & Henq & _).
    vm_compute in Henq. discriminate.
  - by_evaluation.
  - by_evaluation.
Qed.

(** ** Streams of chunks *)

Lemma configured_as_recorder_turn (r0 : Recorder.t) (sys : System) now read :
  configured_as r0 sys -> configured_as r0 (step sys (RecorderTurn now read)).
Proof.
  intros [Hthr Hreq]. rewrite step_recorder. unfold configured_as. simpl.
  destruct (turn_fields now read (recorder (workers sys)) (store sys))
    as (-> & -> & _). done.
Qed.

Lemma counted_as (r0 r : Recorder.t) (data : Chunk) (k : Z) :
  Recorder.silence_threshold r = Recorder.silence_threshold r0 ->
  counted r data k = counted r0 data k.
Proof. intros H. unfold counted. by rewrite (is_silent_threshold r0 r). Qed.


(** A silent chunk is read and the counter stays below the required
    count. *)
Lemma read_silent_short (r0 : Recorder.t) (sys : System) now data frames k :
  reading r0 sys frames k ->
  silent r0 data -> k + 1 < Recorder.required_silent_chunks r0 ->
  reading r0 (step sys (RecorderTurn now (Returned data)))
          (frames ++ [data]) (k + 1)
  /\ enqueued_by sys (RecorderTurn now (Returned data)) = [].
Proof.
  intros [Hcap Hcfg] Hsi Hreq.
  assert (counted (recorder (workers sys)) data k = k + 1) as Hk.
  { rewrite (counted_as r0) by apply Hcfg. unfold counted.
    unfold silent in Hsi. by rewrite Hsi. }
  destruct (step_read_append sys now data frames k Hcap) as [Hcap' Henq].
  { rewrite Hk. destruct Hcfg as [_ ->]. lia. }
  rewrite Hk in Hcap'. split; [split|]; [done| |done].
  by apply configured_as_recorder_turn.
Qed.

(** A silent chunk is read and the counter reaches the required count:
    what precedes the silent run is enqueued, the run is kept. *)
Lemma read_silent_split (r0 : Recorder.t) (sys : System) now data seg tail k :
  reading r0 sys (seg ++ tail) k ->
  silent r0 data -> len tail = k -> seg ≠ [] ->
  Recorder.required_silent_chunks r0 <= k + 1 ->
  reading r0 (step sys (RecorderTurn now (Returned data)))
          (tail ++ [data]) (k + 1)
  /\ enqueued_by sys (RecorderTurn now (Returned data)) = [Some seg].
Proof.
  intros [Hcap Hcfg] Hsi Hlen Hseg Hreq.
  assert (counted (recorder (workers sys)) data k = k + 1) as Hk.
  { rewrite (counted_as r0) by apply Hcfg. unfold counted.
    unfold silent in Hsi. by rewrite Hsi. }
  destruct (step_read_split sys now data (seg ++ tail) k seg (tail ++ [data])
              Hcap) as [Hcap' Henq].
  - rewrite Hk. by destruct Hcfg as [_ ->].
  - rewrite Hk, !len_app. unfold len at 3. simpl.
    assert (0 < len seg); [|lia].
    destruct seg; [done|]. unfold len. simpl. lia.
  - by rewrite app_assoc.
  - rewrite Hk, len_app. unfold len at 2. simpl. lia.
  - by destruct tail.
  - done.
  - rewrite Hk in Hcap'. split; [split|]; [done| |done].
    by apply configured_as_recorder_turn.
Qed.

Lemma reads_cons (tc : Z * Chunk) (stream : list (Z * Chunk)) :
  reads (tc :: stream) = RecorderTurn tc.1 (Returned tc.2) :: reads stream.
Proof. reflexivity. Qed.

Lemma reads_app (a b : list (Z * Chunk)) : reads (a ++ b) = reads a ++ reads b.
Proof. apply fmap_app. Qed.


(** A stream of silence is read that leaves the counter below the required
    count: all of it joins the buffer. *)
Lemma read_silent_stream (r0 : Recorder.t) (stream : list (Z * Chunk)) :
  Forall (fun tc => silent r0 tc.2) stream ->
  forall (sys : System) frames k,
    reading r0 sys frames k ->
    k + len stream < Recorder.required_silent_chunks r0 ->
    reading r0 (run sys (reads stream)) (frames ++ chunks stream)
            (k + len stream)
    /\ enqueued sys (reads stream) = [].
Proof.
  intros Hall. induction Hall as [|tc stream Htc Hall IH];
    intros sys frames k Hrd Hreq.
  { simpl. rewrite app_nil_r. unfold len. simpl. by rewrite Z.add_0_r. }
  assert (len (tc :: stream) = 1 + len stream) as Hl
    by (unfold len; simpl length; lia).
  rewrite Hl in *. pose proof (len_nonneg stream).
  destruct (read_silent_short r0 sys tc.1 tc.2 frames k Hrd Htc)
    as [Hrd' Henq]; [lia|].
  destruct (IH _ _ _ Hrd') as [Hrd'' Henq']; [lia|].
  rewrite reads_cons, run_cons, enqueued_cons, Henq, Henq'.
  split; [|done].
  replace (frames ++ chunks (tc :: stream))
    with ((frames ++ [tc.2]) ++ chunks stream)
    by (by rewrite <- app_assoc).
  by replace (k + (1 + len stream)) with (k + 1 + len stream) by lia.
Qed.

(** ** The transition to Inactive and the final flush *)

(** A call that leads to Inactive tells both workers to terminate and to
    stop recording; it touches neither the recorder's locals nor the
    store. *)
Lemma step_to_inactive (sys : System) (op : Op) :
  wired sys -> transition_table (fsm_state sys) op = Some INACTIVE ->
  let sys' := step sys (Call op) in
  fsm_state sys' = INACTIVE
  /\ Recorder._terminate (recorder (workers sys')) = true
  /\ Recorder._recording (recorder (workers sys')) = false
  /\ Transcriber._terminate (transcriber (workers sys')) = true
  /\ rec_thread sys' = rec_thread sys
  /\ store sys' = store sys.
Proof.
  intros Hw Ht. cbv zeta. rewrite step_call, Ht by done.
  unfold rec_thread. simpl. repeat split.
Qed.

(** The turn of a recorder that has been told to terminate: it leaves the
    loop, and a buffer that is not empty is enqueued whole. *)
Lemma flush_turn (sys : System) now read frames k :
  Recorder._terminate (recorder (workers sys)) = true ->
  rec_thread sys = Recorder.Looping frames k ->
  rec_thread (step sys (RecorderTurn now read)) = Recorder.Finished
  /\ enqueued_by sys (RecorderTurn now read)
     = match frames with [] => [] | _ :: _ => [Some frames] end.
Proof.
  intros Ht Hth.
  pose proof (turn_terminate now read _ (store sys) frames k Ht Hth) as Hturn.
  split.
  - rewrite step_recorder. unfold rec_thread. simpl. by rewrite Hturn.
  - destruct frames as [|c frames].
    + apply enqueued_by_same_store. rewrite step_recorder. simpl.
      by rewrite Hturn.
    + apply (enqueued_by_write _ _ now). rewrite step_recorder. simpl.
      by rewrite Hturn.
Qed.


(** ** The scenario *)

(** [VoiceTypingEngine(StateManager())] is the system the scenario starts
    from. *)
Example engine_boots_with_defaults :
  VoiceTypingEngine__init__ StateManager__init__
  = Returned (boot default_recorder []).
Proof. vm_compute. reflexivity. Qed.


Lemma chunks_app (a b : list (Z * Chunk)) :
  chunks (a ++ b) = chunks a ++ chunks b.
Proof. apply fmap_app. Qed.

Lemma len_chunks (a : list (Z * Chunk)) : len (chunks a) = len a.
Proof. unfold len, chunks. by rewrite length_fmap. Qed.




(** ** Threads that have left [run] *)

Lemma step_call_recorder (sys : System) (op : Op) :
  wired sys ->
  rec_thread (step sys (Call op)) = rec_thread sys
  /\ store (step sys (Call op)) = store sys
  /\ typed (step sys (Call op)) = typed sys
  /\ tr_thread (step sys (Call op)) = tr_thread sys.
Proof.
  intros Hw. rewrite step_call by done.
  destruct (transition_table _ op) as [d|]; [|done].
  unfold rec_thread, tr_thread. simpl.
  destruct (handle_state_change_fields d (recorder (workers sys)))
    as (-> & _). repeat split.
  by destruct d, (transcriber (workers sys)).
Qed.

Lemma step_transcriber (sys : System) transcribed :
  step sys (TranscriberTurn transcribed)
  = let out := Transcriber.turn transcribed (transcriber (workers sys))
                 (store sys) (typed sys) in
    {| state_manager := state_manager sys;
       workers := {| recorder := recorder (workers sys);
                     transcriber := out.1.1 |};
       store := out.1.2;
       typed := out.2 |}.
Proof. unfold step. by destruct (Transcriber.turn _ _ _ _) as [[? ?] ?]. Qed.

(** Once the recorder thread has left [run] it stays out, whatever
    happens, and nothing is enqueued any more. *)
Lemma recorder_gone_forever (schedule : list Event) :
  forall sys : System,
    consistent sys -> recorder_gone sys ->
    rec_thread (run sys schedule) = rec_thread sys
    /\ enqueued sys schedule = [].
Proof.
  induction schedule as [|ev rest IH]; intros sys Hc Hg; [done|].
  assert (rec_thread (step sys ev) = rec_thread sys
          /\ enqueued_by sys ev = []) as [Hth Henq].
  { destruct ev as [op|now read|transcribed].
    - split; [by apply step_call_recorder, Hc|apply enqueued_by_call].
    - pose proof (turn_gone now read _ (store sys) Hg) as Hturn.
      split.
      + rewrite step_recorder. unfold rec_thread. simpl. by rewrite Hturn.
      + apply enqueued_by_same_store. rewrite step_recorder. simpl.
        by rewrite Hturn.
    - split; [by rewrite step_transcriber|apply enqueued_by_transcriber]. }
  destruct (IH (step sys ev)) as [Hth' Henq'].
  { by apply consistent_step. }
  { unfold recorder_gone. by rewrite Hth. }
  rewrite run_cons, enqueued_cons, Henq, Henq', Hth'. done.
Qed.

(** ** Flags *)

(** The flag that tells the recorder to terminate is never cleared. *)
Lemma recorder_terminate_stays (schedule : list Event) :
  forall sys : System,
    consistent sys ->
    Recorder._terminate (recorder (workers sys)) = true ->
    Recorder._terminate (recorder (workers (run sys schedule))) = true.
Proof.
  induction schedule as [|ev rest IH]; intros sys Hc Ht; [done|].
  rewrite run_cons. apply IH; [by apply consistent_step|].
  destruct ev as [op|now read|transcribed].
  - rewrite step_call by apply Hc.
    destruct (transition_table _ op) as [d|]; [|done]. simpl.
    destruct (handle_state_change_fields d (recorder (workers sys)))
      as (_ & _ & _ & _ & ->). by rewrite Ht.
  - rewrite step_recorder. simpl.
    destruct (turn_fields now read (recorder (workers sys)) (store sys))
      as (_ & _ & -> & _). done.
  - by rewrite step_transcriber.
Qed.

Lemma transcriber_handle_fields (s : AppState) (t : Transcriber.t) :
  Transcriber.thread (Transcriber._handle_state_change s t)
  = Transcriber.thread t
  /\ Transcriber._process_allowed (Transcriber._handle_state_change s t)
     = bool_decide (s = RECORDING)
  /\ Transcriber._terminate (Transcriber._handle_state_change s t)
     = Transcriber._terminate t || bool_decide (s = INACTIVE).
Proof. destruct s, t as [[] ? ?]; done. Qed.

Lemma transcriber_turn_flags transcribed (t : Transcriber.t) st ty :
  let t' := (Transcriber.turn transcribed t st ty).1.1 in
  Transcriber._terminate t' = Transcriber._terminate t
  /\ Transcriber._process_allowed t' = Transcriber._process_allowed t.
Proof.
  unfold Transcriber.turn.
  destruct t as [term allowed []]; simpl; [|done..].
  destruct term; [done|]. destruct allowed; [|done]. simpl.
  destruct (audio_queue st); [done|].
  destruct transcribed as [result|e]; [|done].
  by destruct (decide (strip result = EmptyString)).
Qed.

(** The same for the transcriber. *)
Lemma transcriber_terminate_stays (schedule : list Event) :
  forall sys : System,
    consistent sys ->
    Transcriber._terminate (transcriber (workers sys)) = true ->
    Transcriber._terminate (transcriber (workers (run sys schedule))) = true.
Proof.
  induction schedule as [|ev rest IH]; intros sys Hc Ht; [done|].
  rewrite run_cons. apply IH; [by apply consistent_step|].
  destruct ev as [op|now read|transcribed].
  - rewrite step_call by apply Hc.
    destruct (transition_table _ op) as [d|]; [|done]. simpl.
    destruct (transcriber_handle_fields d (transcriber (workers sys)))
      as (_ & _ & ->). by rewrite Ht.
  - by rewrite step_recorder.
  - rewrite step_transcriber. simpl.
    by destruct (transcriber_turn_flags transcribed
                   (transcriber (workers sys)) (store sys) (typed sys))
      as [-> _].
Qed.

(** A transcriber that has been told to terminate is out of [run] after
    its turn. *)
Lemma transcriber_turn_terminated (sys : System) transcribed :
  Transcriber._terminate (transcriber (workers sys)) = true ->
  transcriber_gone (step sys (TranscriberTurn transcribed)).
Proof.
  intros Ht. rewrite step_transcriber.
  unfold transcriber_gone, tr_thread, Transcriber.turn. simpl.
  destruct (Transcriber.thread (transcriber (workers sys))) eqn:Hth;
    [by rewrite Ht|simpl; by rewrite Hth..].
Qed.

(** A recorder that has been told to terminate is out of [run] after its
    turn. *)
Lemma recorder_turn_terminated (sys : System) now read :
  Recorder._terminate (recorder (workers sys)) = true ->
  recorder_gone (step sys (RecorderTurn now read)).
Proof.
  intros Ht frames k. rewrite step_recorder.
  unfold rec_thread, Recorder.turn. simpl.
  destruct (Recorder.thread (recorder (workers sys))) eqn:Hth;
    [by rewrite Ht|simpl; by rewrite Hth..].
Qed.

Lemma transcriber_turn_gone transcribed (t : Transcriber.t) st ty :
  Transcriber.thread t ≠ Transcriber.Looping ->
  Transcriber.turn transcribed t st ty = (t, st, ty).
Proof.
  intros H. unfold Transcriber.turn. by destruct (Transcriber.thread t).
Qed.

(** Once the transcriber thread has left [run] it stays out: it takes
    nothing from the queue and types nothing. *)
Lemma transcriber_gone_forever (schedule : list Event) :
  forall sys : System,
    consistent sys -> transcriber_gone sys ->
    tr_thread (run sys schedule) = tr_thread sys
    /\ typed (run sys schedule) = typed sys
    /\ queue sys `prefix_of` queue (run sys schedule).
Proof.
  induction schedule as [|ev rest IH]; intros sys Hc Hg; [done|].
  assert (tr_thread (step sys ev) = tr_thread sys
          /\ typed (step sys ev) = typed sys
          /\ queue sys `prefix_of` queue (step sys ev)) as (Hth & Hty & Hq).
  { destruct ev as [op|now read|transcribed].
    - destruct (step_call_recorder sys op) as (_ & Hst & Hty & Htr);
        [apply Hc|]. unfold queue. by rewrite Hst.
    - rewrite step_recorder. unfold queue. simpl. repeat split.
      destruct (turn_store now read (recorder (workers sys)) (store sys))
        as [->|(seg & _ & ->)]; [done|].
      rewrite write_and_put_queue. by apply prefix_app_r.
    - rewrite step_transcriber, (transcriber_turn_gone _ _ _ _ Hg).
      by destruct sys as [? [? ?] ? ?]. }
  destruct (IH (step sys ev)) as (Hth' & Hty' & Hq').
  { by apply consistent_step. }
  { unfold transcriber_gone. by rewrite Hth. }
  rewrite run_cons, Hth', Hty'. repeat split; [done..|].
  by etrans.
Qed.

(** ** Read errors *)

(** C7, as amended.  An error of [stream.read] is not handled in
    [Recorder.run]: in every state the system can reach in which the
    recorder reads, the first failing read ends the recorder thread with
    that exception.  Nothing is flushed: the store is as it was and the
    buffered chunks are lost; the state machine, the transcriber and the
    typed text are untouched (nothing is reported); and whatever happens
    later, the recorder stays dead and enqueues nothing. *)
Theorem read_error_ends_recorder
    (sample_rate chunk_size threshold n : Z)
    (others : list (Callback Workers)) (schedule later : list Event)
    (now : Z) (e : exn) (frames : list Chunk) (k : Z) :
  let sys :=
    run (boot (Recorder.fresh sample_rate chunk_size threshold n) others)
        schedule in
  let sys' := step sys (RecorderTurn now (Raised e)) in
  Forall passive others ->
  capturing sys frames k ->
  rec_thread sys' = Recorder.Crashed e
  /\ store sys' = store sys
  /\ enqueued_by sys (RecorderTurn now (Raised e)) = []
  /\ state_manager sys' = state_manager sys
  /\ transcriber (workers sys') = transcriber (workers sys)
  /\ typed sys' = typed sys
  /\ rec_thread (run sys' later) = Recorder.Crashed e
  /\ enqueued sys' later = [].
Proof.
  intros sys sys' Hp (Ht & Hr & Hth).
  pose proof (turn_read_error now e _ (store sys) frames k Ht Hr Hth)
    as Hturn.
  assert (rec_thread sys' = Recorder.Crashed e) as Hcr.
  { unfold sys'. rewrite step_recorder. unfold rec_thread. simpl.
    by rewrite Hturn. }
  assert (store sys' = store sys) as Hst.
  { unfold sys'. rewrite step_recorder. simpl. by rewrite Hturn. }
  split; [done|]. split; [done|].
  split; [by apply enqueued_by_same_store|].
  split; [unfold sys'; by rewrite step_recorder|].
  split; [unfold sys'; by rewrite step_recorder|].
  split; [unfold sys'; by rewrite step_recorder|].
  destruct (recorder_gone_forever later sys') as [Hth' Henq].
  - by apply consistent_step, reachable_consistent.
  - intros f j. by rewrite Hcr.
  - by rewrite Hth', Hcr.
Qed.

Lemma read_error_ends_recorder_witness :
  let sys' := step one_chunk_buffered (RecorderTurn 2 (Raised OSError)) in
  rec_thread sys' = Recorder.Crashed OSError
  /\ store sys' = store one_chunk_buffered
  /\ enqueued_by one_chunk_buffered (RecorderTurn 2 (Raised OSError)) = []
  /\ state_manager sys' = state_manager one_chunk_buffered
  /\ transcriber (workers sys') = transcriber (workers one_chunk_buffered)
  /\ typed sys' = typed one_chunk_buffered
  /\ rec_thread (run sys' [Call StopApp; RecorderTurn 3 (Raised OSError)])
     = Recorder.Crashed OSError
  /\ enqueued sys' [Call StopApp; RecorderTurn 3 (Raised OSError)] = [].
Proof.
  apply (read_error_ends_recorder 48000 1024 300 46 []
           [Call Activate; Call StartRecording;
            RecorderTurn 1 (Returned loud)]
           [Call StopApp; RecorderTurn 3 (Raised OSError)]
           2 OSError [loud] 0).
  - constructor.
  - split; [|split]; by_evaluation.
Defined.

(** C7, as stated, fails.  With one chunk buffered, a single failing read
    ends the recorder: it is no longer in its loop. *)
Lemma single_read_error_is_fatal :
  ¬ read_errors_tolerated one_chunk_buffered 2 OSError
  /\ capturing one_chunk_buffered [loud] 0
  /\ rec_thread (step one_chunk_buffered (RecorderTurn 2 (Raised OSError)))
     = Recorder.Crashed OSError
  /\ enqueued one_chunk_buffered (replicate 3 (RecorderTurn 2 (Raised OSError)))
     = [].
Proof.
  assert (capturing one_chunk_buffered [loud] 0) as Hcap
    by (split; [|split]; by_evaluation).
  split; [|split; [done|split; by_evaluation]].
  intros H. destruct (H [loud] 0 Hcap) as [(_ & _ & Hth) _].
  vm_compute in Hth. discriminate.
Qed.

(** ** Waiting *)

Lemma configured_as_step (r0 : Recorder.t) (sys : System) (ev : Event) :
  wired sys -> configured_as r0 sys -> configured_as r0 (step sys ev).
Proof.
  intros Hw Hcfg. destruct ev as [op|now read|transcribed].
  - rewrite step_call by done.
    destruct (transition_table _ op) as [d|]; [|done].
    unfold configured_as in *. simpl.
    by destruct (handle_state_change_fields d (recorder (workers sys)))
      as (_ & -> & -> & _).
  - by apply configured_as_recorder_turn.
  - by rewrite step_transcriber.
Qed.

(** While the machine stays in one state and the recorder waits, the
    recorder's locals stay as they are and nothing is enqueued. *)
Lemma holding_run (s : AppState) (schedule : list Event) :
  forall (sys : System) frames k,
    consistent sys -> fsm_state sys = s -> holding sys frames k ->
    stays_in s schedule ->
    fsm_state (run sys schedule) = s
    /\ holding (run sys schedule) frames k
    /\ enqueued sys schedule = [].
Proof.
  induction schedule as [|ev rest IH]; intros sys frames k Hc Hs Hh Hstay;
    [done|].
  apply Forall_cons in Hstay as [Hev Hstay].
  assert (fsm_state (step sys ev) = s /\ holding (step sys ev) frames k
          /\ enqueued_by sys ev = []) as (Hs' & Hh' & Henq).
  { destruct ev as [op|now read|transcribed].
    - assert (step sys (Call op) = sys) as Hsame.
      { rewrite step_call by apply Hc. by rewrite Hs, Hev. }
      rewrite Hsame. split; [done|]. split; [done|]. apply enqueued_by_call.
    - destruct Hh as (Ht & Hr & Hth).
      pose proof (turn_idle now read _ (store sys) frames k Ht Hr Hth)
        as Hturn.
      assert (step sys (RecorderTurn now read) = sys) as Hsame.
      { rewrite step_recorder, Hturn. by destruct sys as [? [? ?] ? ?]. }
      split; [by rewrite Hsame|]. split; [by rewrite Hsame|].
      apply enqueued_by_same_store. by rewrite Hsame.
    - split; [|split]; [..|apply enqueued_by_transcriber];
        by rewrite step_transcriber. }
  destruct (IH (step sys ev) frames k) as (Hs'' & Hh'' & Henq');
    [by apply consistent_step|done..|].
  by rewrite run_cons, enqueued_cons, Henq, Henq'.
Qed.

(** Without a turn of the recorder, its thread stays where it is and
    nothing is enqueued. *)
Lemma no_recorder_turn_run (schedule : list Event) :
  forall sys : System,
    consistent sys -> no_recorder_turn schedule ->
    rec_thread (run sys schedule) = rec_thread sys
    /\ enqueued sys schedule = [].
Proof.
  induction schedule as [|ev rest IH]; intros sys Hc Hno; [done|].
  apply Forall_cons in Hno as [Hev Hno].
  assert (rec_thread (step sys ev) = rec_thread sys
          /\ enqueued_by sys ev = []) as [Hth Henq].
  { destruct ev as [op|now read|transcribed]; [|done|].
    - split; [by apply step_call_recorder, Hc|apply enqueued_by_call].
    - split; [by rewrite step_transcriber|apply enqueued_by_transcriber]. }
  destruct (IH (step sys ev)) as [Hth' Henq'];
    [by apply consistent_step|done|].
  by rewrite run_cons, enqueued_cons, Henq, Henq', Hth'.
Qed.

(** [pause_recording] in Recording: the machine is in Paused and the
    recorder waits, with its locals as they were. *)
Lemma step_pause (sys : System) frames k :
  wired sys -> fsm_state sys = RECORDING ->
  Recorder._terminate (recorder (workers sys)) = false ->
  rec_thread sys = Recorder.Looping frames k ->
  fsm_state (step sys (Call PauseRecording)) = PAUSED
  /\ holding (step sys (Call PauseRecording)) frames k.
Proof.
  intros Hw Hs Ht Hth. rewrite step_call, Hs by done.
  unfold holding, rec_thread in *. simpl. done.
Qed.

(** [start_recording] in Paused: the machine is in Recording and the
    recorder reads, with its locals as they were. *)
Lemma step_resume (sys : System) frames k :
  wired sys -> fsm_state sys = PAUSED -> holding sys frames k ->
  fsm_state (step sys (Call StartRecording)) = RECORDING
  /\ capturing (step sys (Call StartRecording)) frames k.
Proof.
  intros Hw Hs (Ht & _ & Hth). rewrite step_call, Hs by done.
  unfold capturing, rec_thread in *. simpl. done.
Qed.

(** ** Leaving Recording *)

(** C3, as amended.  In every state the system can reach with the machine
    in Recording and the recorder reading: a call that leads to Inactive
    ([deactivate] or [stop_app], the latter being what shutdown calls) is
    followed, at the recorder's next turn and whatever the other threads
    do in between, by the end of the recorder's loop and by its final
    flush: a buffer that is not empty is enqueued whole as one segment,
    whatever the silent run it ends with, and an empty buffer enqueues
    nothing.  A call of [pause_recording] leads to Paused and is followed
    by no flush: as long as the machine stays in Paused nothing is
    enqueued, and the recorder waits in its loop with its buffer and its
    counter as they were. *)
Theorem flush_on_inactive_not_on_pause
    (sample_rate chunk_size threshold n : Z)
    (others : list (Callback Workers))
    (schedule between idle : list Event) (op : Op)
    (now : Z) (read : completion Chunk) (frames : list Chunk) (k : Z) :
  let sys :=
    run (boot (Recorder.fresh sample_rate chunk_size threshold n) others)
        schedule in
  Forall passive others ->
  fsm_state sys = RECORDING -> capturing sys frames k ->
  transition_table RECORDING op = Some INACTIVE ->
  no_recorder_turn between -> stays_in PAUSED idle ->
  (fsm_state (step sys (Call op)) = INACTIVE
   /\ enqueued sys (Call op :: between ++ [RecorderTurn now read])
      = match frames with [] => [] | _ :: _ => [Some frames] end
   /\ rec_thread (run sys (Call op :: between ++ [RecorderTurn now read]))
      = Recorder.Finished)
  /\ fsm_state (step sys (Call PauseRecording)) = PAUSED
  /\ enqueued sys (Call PauseRecording :: idle) = []
  /\ holding (run sys (Call PauseRecording :: idle)) frames k.
Proof.
  intros sys Hp Hs Hcap Hop Hno Hstay.
  pose proof (reachable_consistent sample_rate chunk_size threshold n
                others schedule Hp) as Hc. fold sys in Hc.
  destruct Hcap as (Ht & Hr & Hth). split.
  - rewrite <- Hs in Hop.
    destruct (step_to_inactive sys op) as (Hs' & Ht' & _ & _ & Hth' & _);
      [apply Hc|done|].
    split; [done|].
    pose proof (consistent_step sys (Call op) Hc) as Hc'.
    destruct (no_recorder_turn_run between _ Hc' Hno) as [Hth'' Henq].
    pose proof (recorder_terminate_stays between _ Hc' Ht') as Ht''.
    rewrite Hth', Hth in Hth''.
    destruct (flush_turn _ now read frames k Ht'' Hth'') as [Hfin Hflush].
    rewrite enqueued_cons, enqueued_by_call, enqueued_app, Henq,
      enqueued_one, Hflush.
    by rewrite run_cons, run_snoc.
  - destruct (step_pause sys frames k) as [Hs' Hh]; [apply Hc|done..|].
    split; [done|].
    destruct (holding_run PAUSED idle _ frames k
                (consistent_step sys _ Hc) Hs' Hh Hstay) as (_ & Hh' & Henq).
    by rewrite enqueued_cons, enqueued_by_call, Henq, run_cons.
Qed.

Lemma flush_on_inactive_not_on_pause_witness :
  (fsm_state (step one_chunk_buffered (Call StopApp)) = INACTIVE
   /\ enqueued one_chunk_buffered
        (Call StopApp :: [TranscriberTurn (Returned "oi"%string)]
                         ++ [RecorderTurn 2 (Returned hush)])
      = [Some [loud]]
   /\ rec_thread
        (run one_chunk_buffered
           (Call StopApp :: [TranscriberTurn (Returned "oi"%string)]
                            ++ [RecorderTurn 2 (Returned hush)]))
      = Recorder.Finished)
  /\ fsm_state (step one_chunk_buffered (Call PauseRecording)) = PAUSED
  /\ enqueued one_chunk_buffered
       (Call PauseRecording :: [RecorderTurn 2 (Returned hush)]) = []
  /\ holding (run one_chunk_buffered
                (Call PauseRecording :: [RecorderTurn 2 (Returned hush)]))
             [loud] 0.
Proof.
  apply (flush_on_inactive_not_on_pause 48000 1024 300 46 []
           [Call Activate; Call StartRecording;
            RecorderTurn 1 (Returned loud)]
           [TranscriberTurn (Returned "oi"%string)]
           [RecorderTurn 2 (Returned hush)]
           StopApp 2 (Returned hush) [loud] 0).
  - constructor.
  - reflexivity.
  - split; [|split]; by_evaluation.
  - reflexivity.
  - by repeat constructor.
  - by repeat constructor.
Defined.

(** C3, as stated, fails for the transition to Paused.  With one chunk
    buffered, [pause_recording] and the recorder's next turn enqueue
    nothing. *)
Lemma pause_does_not_flush :
  ¬ flushes_on_leaving_recording one_chunk_buffered PauseRecording 2
      (Returned hush)
  /\ enqueued one_chunk_buffered
       [Call PauseRecording; RecorderTurn 2 (Returned hush)] = []
  /\ rec_thread (run one_chunk_buffered
                   [Call PauseRecording; RecorderTurn 2 (Returned hush)])
     = Recorder.Looping [loud] 0.
Proof.
  split; [|split; by_evaluation].
  intros H. destruct (H [loud] 0 PAUSED) as [Henq _].
  - reflexivity.
  - split; [|split]; by_evaluation.
  - discriminate.
  - reflexivity.
  - discriminate.
  - vm_compute in Henq. discriminate.
Qed.

(** ** The next segment *)

(** The read that meets the split condition with a counter of 0: both
    slices are taken at [-0], the segment is empty and is not written, the
    buffer is kept whole. *)
Lemma step_read_zero (sys : System) now data frames k :
  capturing sys frames k ->
  let r := recorder (workers sys) in
  counted r data k = 0 ->
  capturing (step sys (RecorderTurn now (Returned data))) (frames ++ [data]) 0
  /\ enqueued_by sys (RecorderTurn now (Returned data)) = [].
Proof.
  intros (Ht & Hr & Hth) r Hk.
  pose proof (turn_read now data r (store sys) frames k Ht Hr Hth) as Hturn.
  cbv zeta in Hturn. rewrite Hk in Hturn. simpl (- 0) in Hturn.
  rewrite slice_to_0, slice_from_0 in Hturn.
  assert (Recorder.turn now (Returned data) r (store sys)
          = (Recorder.set_thread (Recorder.Looping (frames ++ [data]) 0) r,
             store sys)) as Hturn'.
  { rewrite Hturn. by destruct (_ && _). }
  split.
  - rewrite step_recorder. unfold capturing, rec_thread. simpl.
    fold r. by rewrite Hturn'.
  - apply enqueued_by_same_store. rewrite step_recorder. simpl.
    fold r. by rewrite Hturn'.
Qed.

(** What a turn of a looping recorder can do: enqueue nothing, and then
    the thread is out of [run] or the buffer has only grown; or enqueue one
    segment, not empty, which with a run of silent chunks makes up the
    buffer and what was read. *)
Lemma recorder_turn_outcome (sys : System) now read frames k :
  consistent sys -> rec_thread sys = Recorder.Looping frames k ->
  let ev := RecorderTurn now read in
  (enqueued_by sys ev = []
   /\ (recorder_gone (step sys ev)
       \/ exists more k',
            rec_thread (step sys ev) = Recorder.Looping (frames ++ more) k'))
  \/ (exists seg tail more,
        frames ++ more = seg ++ tail /\ seg ≠ []
        /\ Forall (silent (recorder (workers sys))) tail
        /\ enqueued_by sys ev = [Some seg]).
Proof.
  intros (Hw & Hshape & _) Hth ev. unfold ev.
  unfold buffer_shape in Hshape. unfold rec_thread in Hth.
  rewrite Hth in Hshape.
  destruct (Recorder._terminate (recorder (workers sys))) eqn:Ht.
  { destruct (flush_turn sys now read frames k Ht Hth) as [Hfin Henq].
    destruct frames as [|c frames].
    - left. split; [done|]. left. intros f j. by rewrite Hfin.
    - right. exists (c :: frames), [], []. by rewrite !app_nil_r. }
  destruct (Recorder._recording (recorder (workers sys))) eqn:Hr.
  2:{ pose proof (turn_idle now read _ (store sys) frames k Ht Hr Hth)
        as Hturn.
      left. split.
      - apply enqueued_by_same_store. rewrite step_recorder. simpl.
        by rewrite Hturn.
      - right. exists [], k. rewrite step_recorder, app_nil_r.
        unfold rec_thread. simpl. by rewrite Hturn. }
  assert (capturing sys frames k) as Hcap by done.
  destruct read as [data|e].
  2:{ pose proof (turn_read_error now e _ (store sys) frames k Ht Hr Hth)
        as Hturn.
      left. split.
      - apply enqueued_by_same_store. rewrite step_recorder. simpl.
        by rewrite Hturn.
      - left. intros f j. rewrite step_recorder. unfold rec_thread. simpl.
        by rewrite Hturn. }
  pose proof (trailing_silence_read _ _ _ data Hshape) as Hread.
  pose proof (trailing_silence_nonneg _ _ _ Hread) as Hk.
  set (k' := counted (recorder (workers sys)) data k) in *.
  destruct (decide (Recorder.required_silent_chunks (recorder (workers sys))
                      <= k' /\ k' < len (frames ++ [data]))) as [[Hreq Hlt]|Hn].
  - destruct (decide (k' = 0)) as [Hz|Hnz].
    + destruct (step_read_zero sys now data frames k Hcap Hz)
        as [(_ & _ & Hth') Henq].
      left. split; [done|]. right. by exists [data], 0.
    + destruct (trailing_silence_split _ _ _ Hread) as
        (seg & c & tail & Hbuf & _ & Hlen & Hs & _ & _); [lia|done|].
      destruct (step_read_split sys now data frames k (seg ++ [c]) tail Hcap)
        as [_ Henq]; try done.
      { intros ->. unfold len in Hlen. simpl in Hlen. lia. }
      { by destruct seg. }
      right. exists (seg ++ [c]), tail, [data].
      split; [done|]. split; [by destruct seg|]. done.
  - destruct (step_read_append sys now data frames k Hcap Hn)
      as [(_ & _ & Hth') Henq].
    left. split; [done|]. right. by exists [data], k'.
Qed.

Lemma prefix_of_app_cases {A} (l a b : list A) :
  l `prefix_of` a ++ b ->
  l `prefix_of` a \/ exists t, l = a ++ t /\ t `prefix_of` b.
Proof.
  intros [r Hr]. apply app_eq_inv in Hr as [(t & -> & ->)|(t & -> & ->)].
  - left. by exists t.
  - right. exists t. split; [done|]. by exists r.
Qed.

Lemma Forall_prefix {A} (P : A -> Prop) (t l : list A) :
  t `prefix_of` l -> Forall P l -> Forall P t.
Proof. intros [r ->] H. by apply Forall_app in H as [H _]. Qed.

(** From a looping recorder whose buffer begins with [frames0]: the
    segment enqueued next is not empty, and it begins with [frames0] or is
    [frames0] without some silent chunks of its end. *)
Lemma next_segment (r0 : Recorder.t) (frames0 : list Chunk)
    (later : list Event) :
  forall (sys : System) frames k,
    consistent sys -> configured_as r0 sys ->
    rec_thread sys = Recorder.Looping frames k ->
    frames0 `prefix_of` frames ->
    enqueued sys later = [] ->
    forall ev seg,
      enqueued_by (run sys later) ev = [Some seg] ->
      seg ≠ []
      /\ (frames0 `prefix_of` seg
          \/ exists tail, frames0 = seg ++ tail /\ Forall (silent r0) tail).
Proof.
  induction later as [|ev0 rest IH];
    intros sys frames k Hc Hcfg Hth Hpre Hquiet ev seg Henq.
  - simpl in Henq. destruct ev as [op|now read|transcribed].
    + by rewrite enqueued_by_call in Henq.
    + destruct (recorder_turn_outcome sys now read frames k Hc Hth)
        as [[Hnil _]|(seg' & tail & more & Hbuf & Hne & Hs & Hsome)].
      { by rewrite Hnil in Henq. }
      rewrite Hsome in Henq. injection Henq as <-. split; [done|].
      assert (frames0 `prefix_of` seg' ++ tail) as Hp.
      { rewrite <- Hbuf. by apply prefix_app_r. }
      apply prefix_of_app_cases in Hp as [Hp|(t & -> & Hp)]; [by left|].
      right. exists t. split; [done|].
      apply (Forall_prefix _ _ _ Hp).
      eapply Forall_impl; [exact Hs|]. intros c Hsc. unfold silent in *.
      rewrite <- Hsc. symmetry. apply is_silent_threshold, Hcfg.
    + by rewrite enqueued_by_transcriber in Henq.
  - rewrite enqueued_cons in Hquiet.
    apply app_nil in Hquiet as [Hnil Hquiet]. rewrite run_cons in Henq.
    pose proof (consistent_step sys ev0 Hc) as Hc'.
    pose proof (configured_as_step r0 sys ev0 (proj1 Hc) Hcfg) as Hcfg'.
    assert (recorder_gone (step sys ev0)
            \/ exists more k',
                 rec_thread (step sys ev0) = Recorder.Looping (frames ++ more) k')
      as [Hgone|(more & k' & Hth')].
    { destruct ev0 as [op|now read|transcribed].
      - right. exists [], k. rewrite app_nil_r.
        destruct (step_call_recorder sys op (proj1 Hc)) as [-> _]. done.
      - destruct (recorder_turn_outcome sys now read frames k Hc Hth)
          as [[_ H]|(seg' & tail & more & _ & _ & _ & Hsome)]; [done|].
        by rewrite Hsome in Hnil.
      - right. exists [], k. by rewrite app_nil_r, step_transcriber. }
    + destruct (recorder_gone_forever (rest ++ [ev]) _ Hc' Hgone)
        as [_ Hnone].
      rewrite enqueued_app, enqueued_one, Henq in Hnone.
      by apply app_nil in Hnone as [_ ?].
    + apply (IH (step sys ev0) (frames ++ more) k' Hc' Hcfg' Hth'
                (prefix_app_r _ _ _ Hpre) Hquiet ev seg Henq).
Qed.

Lemma configured_as_run (r0 : Recorder.t) (schedule : list Event) :
  forall sys : System,
    consistent sys -> configured_as r0 sys ->
    configured_as r0 (run sys schedule).
Proof.
  induction schedule as [|ev rest IH]; intros sys Hc Hcfg; [done|].
  rewrite run_cons. apply IH; [by apply consistent_step|].
  by apply configured_as_step; [apply Hc|].
Qed.

(** ** Pause and resume *)

(** C10, as amended.  In every state the system can reach with the machine
    in Recording and the recorder reading (so the recorder has not been
    told to terminate): after [pause_recording], for as long as the machine
    stays in Paused, the recorder waits with its buffer and its counter as
    they were at the pause and nothing is enqueued; after the
    [start_recording] that follows, the recorder reads again, with the same
    buffer and the same counter.  The segment enqueued next is therefore
    cut from the front of the paused-over chunks followed by the chunks
    read later: it is not empty, and either it begins with all the
    paused-over chunks, or it is the paused-over chunks without the silent
    chunks of their end (which stay in the buffer for the segment after
    it). *)
Theorem pause_and_resume_keep_buffer
    (sample_rate chunk_size threshold n : Z)
    (others : list (Callback Workers))
    (schedule idle later : list Event) (ev : Event)
    (frames : list Chunk) (k : Z) (seg : Segment) :
  let r0 := Recorder.fresh sample_rate chunk_size threshold n in
  let sys := run (boot r0 others) schedule in
  let paused := run sys (Call PauseRecording :: idle) in
  let resumed := step paused (Call StartRecording) in
  Forall passive others ->
  fsm_state sys = RECORDING -> capturing sys frames k ->
  stays_in PAUSED idle ->
  (fsm_state paused = PAUSED /\ holding paused frames k)
  /\ (fsm_state resumed = RECORDING /\ capturing resumed frames k)
  /\ enqueued sys (Call PauseRecording :: idle ++ [Call StartRecording]) = []
  /\ (enqueued resumed later = [] ->
      enqueued_by (run resumed later) ev = [Some seg] ->
      seg ≠ []
      /\ (frames `prefix_of` seg
          \/ exists tail, frames = seg ++ tail /\ Forall (silent r0) tail)).
Proof.
  intros r0 sys paused resumed Hp Hs (Ht & Hr & Hth) Hstay.
  pose proof (reachable_consistent sample_rate chunk_size threshold n
                others schedule Hp) as Hc. fold r0 sys in Hc.
  destruct (step_pause sys frames k) as [Hs1 Hh1]; [apply Hc|done..|].
  pose proof (consistent_step sys (Call PauseRecording) Hc) as Hc1.
  destruct (holding_run PAUSED idle _ frames k Hc1 Hs1 Hh1 Hstay)
    as (Hs2 & Hh2 & Henq2).
  assert (consistent paused) as Hc2
    by (unfold paused; rewrite run_cons; by apply consistent_run).
  assert (fsm_state paused = PAUSED /\ holding paused frames k) as [Hs3 Hh3]
    by (unfold paused; by rewrite run_cons).
  destruct (step_resume paused frames k) as [Hs4 Hcap4];
    [apply Hc2|done..|].
  split; [done|]. split; [done|]. split.
  { rewrite enqueued_cons, enqueued_by_call, enqueued_app, Henq2,
      enqueued_one, enqueued_by_call. done. }
  intros Hquiet Henq.
  apply (next_segment r0 frames later resumed frames k) with (ev := ev);
    try done.
  - by apply consistent_step.
  - unfold resumed, paused, sys.
    apply configured_as_step; [apply Hc2|].
    apply configured_as_run; [done|].
    apply configured_as_run; [by apply consistent_boot|done].
  - apply Hcap4.
Qed.

Lemma pause_and_resume_keep_buffer_witness :
  let idle := [RecorderTurn 3 (Returned hush); Call Activate] in
  let paused := run count_two_recording (Call PauseRecording :: idle) in
  let resumed := step paused (Call StartRecording) in
  (fsm_state paused = PAUSED /\ holding paused [loud; hush] 1)
  /\ (fsm_state resumed = RECORDING /\ capturing resumed [loud; hush] 1)
  /\ enqueued count_two_recording
       (Call PauseRecording :: idle ++ [Call StartRecording]) = []
  /\ [loud] ≠ []
  /\ ([loud; hush] `prefix_of` [loud]
      \/ exists tail,
           [loud; hush] = [loud] ++ tail
           /\ Forall (silent (Recorder.fresh 48000 1024 300 2)) tail).
Proof.
  intros idle paused resumed.
  destruct (pause_and_resume_keep_buffer 48000 1024 300 2 []
              [Call Activate; Call StartRecording;
               RecorderTurn 1 (Returned loud); RecorderTurn 2 (Returned hush)]
              idle [] (RecorderTurn 4 (Returned hush)) [loud; hush] 1 [loud])
    as (H1 & H2 & H3 & H4).
  - constructor.
  - reflexivity.
  - split; [|split]; by_evaluation.
  - by repeat constructor.
  - split; [exact H1|]. split; [exact H2|]. split; [exact H3|].
    apply H4; by_evaluation.
Defined.

(** C10, as stated, fails in two ways.  (1) With a required count of 2 and
    the buffer [loud; hush] at the pause, the silent chunk read after the
    resume makes the split: the segment enqueued is [loud] alone, and the
    paused-over silent chunk is not in it.  (2) When the machine has been
    in Inactive before -- and is in Recording again before the recorder
    had a turn -- the recorder's turn during the pause is its last: it
    flushes and leaves [run], and there is no buffer at the resume. *)
Lemma pause_keeps_segment_state_fails :
  (¬ pause_keeps_segment_state count_two_recording [] []
       (RecorderTurn 3 (Returned hush))
   /\ rec_thread count_two_recording = Recorder.Looping [loud; hush] 1
   /\ enqueued_by
        (run count_two_recording [Call PauseRecording; Call StartRecording])
        (RecorderTurn 3 (Returned hush))
      = [Some [loud]])
  /\ (¬ pause_keeps_segment_state reactivated_unserved
         [RecorderTurn 2 (Raised OSError)] []
         (RecorderTurn 3 (Returned hush))
      /\ fsm_state reactivated_unserved = RECORDING
      /\ rec_thread reactivated_unserved = Recorder.Looping [loud] 0
      /\ rec_thread
           (run reactivated_unserved
              [Call PauseRecording; RecorderTurn 2 (Raised OSError);
               Call StartRecording])
         = Recorder.Finished).
Proof.
  split; (split; [intros H|repeat split; by_evaluation]).
  - destruct (H [loud; hush] 1 [loud]) as [_ Hpre].
    + reflexivity.
    + reflexivity.
    + constructor.
    + apply prefix_length in Hpre; [simpl in Hpre; lia|..]; by_evaluation.
  - destruct (H [loud] 0 [loud]) as [Hth _].
    + reflexivity.
    + reflexivity.
    + by repeat constructor.
    + vm_compute in Hth. discriminate.
Qed.

(** ** Lifetimes of the workers *)

(** C5, as amended.  The worker loops run until the machine first goes to
    Inactive, not for the lifetime of the process.  In every state the
    system can reach: a transition to Ready, Recording or Paused leaves the
    two terminate flags and the two threads as they are; a transition to
    Inactive sets both terminate flags, which nothing clears, so that
    whatever is called later -- [activate] and [start_recording] included
    -- the recorder is out of [run] from its next turn on and the
    transcriber from its next turn on, for good. *)
Theorem workers_end_at_inactive
    (sample_rate chunk_size threshold n : Z)
    (others : list (Callback Workers))
    (schedule later1 later2 : list Event)
    (op1 op2 : Op) (d : AppState)
    (now : Z) (read : completion Chunk) (transcribed : completion string) :
  let sys :=
    run (boot (Recorder.fresh sample_rate chunk_size threshold n) others)
        schedule in
  Forall passive others ->
  transition_table (fsm_state sys) op1 = Some d -> d ≠ INACTIVE ->
  transition_table (fsm_state sys) op2 = Some INACTIVE ->
  (let sys' := step sys (Call op1) in
   fsm_state sys' = d
   /\ Recorder._terminate (recorder (workers sys'))
      = Recorder._terminate (recorder (workers sys))
   /\ Transcriber._terminate (transcriber (workers sys'))
      = Transcriber._terminate (transcriber (workers sys))
   /\ rec_thread sys' = rec_thread sys
   /\ tr_thread sys' = tr_thread sys)
  /\ (let sys' := step sys (Call op2) in
      fsm_state sys' = INACTIVE
      /\ Recorder._terminate (recorder (workers (run sys' later1))) = true
      /\ Transcriber._terminate (transcriber (workers (run sys' later1)))
         = true
      /\ recorder_gone (run sys' (later1 ++ RecorderTurn now read :: later2))
      /\ transcriber_gone
           (run sys' (later1 ++ TranscriberTurn transcribed :: later2))).
Proof.
  intros sys Hp Hop1 Hd Hop2.
  pose proof (reachable_consistent sample_rate chunk_size threshold n
                others schedule Hp) as Hc. fold sys in Hc.
  split.
  - cbv zeta. rewrite step_call, Hop1 by apply Hc.
    unfold rec_thread, tr_thread. simpl.
    destruct (handle_state_change_fields d (recorder (workers sys)))
      as (-> & _ & _ & _ & ->).
    destruct (transcriber_handle_fields d (transcriber (workers sys)))
      as (-> & _ & ->).
    rewrite (bool_decide_eq_false_2 _ Hd), !orb_false_r. done.
  - cbv zeta.
    destruct (step_to_inactive sys op2) as (Hs & Ht & _ & Ht' & _);
      [apply Hc|done|].
    pose proof (consistent_step sys (Call op2) Hc) as Hc'.
    pose proof (recorder_terminate_stays later1 _ Hc' Ht) as Hr1.
    pose proof (transcriber_terminate_stays later1 _ Hc' Ht') as Ht1.
    pose proof (consistent_run _ later1 Hc') as Hc1.
    split; [done|]. split; [done|]. split; [done|]. split.
    + rewrite run_app, run_cons.
      pose proof (recorder_turn_terminated _ now read Hr1) as Hg.
      destruct (recorder_gone_forever later2 _
                  (consistent_step _ _ Hc1) Hg) as [Hth _].
      intros f j. rewrite Hth. apply Hg.
    + rewrite run_app, run_cons.
      pose proof (transcriber_turn_terminated _ transcribed Ht1) as Hg.
      destruct (transcriber_gone_forever later2 _
                  (consistent_step _ _ Hc1) Hg) as [Hth _].
      unfold transcriber_gone. rewrite Hth. apply Hg.
Qed.

Lemma workers_end_at_inactive_witness :
  (let sys' := step started (Call PauseRecording) in
   fsm_state sys' = PAUSED
   /\ Recorder._terminate (recorder (workers sys'))
      = Recorder._terminate (recorder (workers started))
   /\ Transcriber._terminate (transcriber (workers sys'))
      = Transcriber._terminate (transcriber (workers started))
   /\ rec_thread sys' = rec_thread started
   /\ tr_thread sys' = tr_thread started)
  /\ (let sys' := step started (Call Deactivate) in
      fsm_state sys' = INACTIVE
      /\ Recorder._terminate (recorder (workers (run sys' [Call Activate])))
         = true
      /\ Transcriber._terminate
           (transcriber (workers (run sys' [Call Activate]))) = true
      /\ recorder_gone
           (run sys' ([Call Activate]
                      ++ RecorderTurn 1 (Returned loud)
                         :: [Call StartRecording;
                             RecorderTurn 2 (Returned loud)]))
      /\ transcriber_gone
           (run sys' ([Call Activate]
                      ++ TranscriberTurn (Returned "oi"%string)
                         :: [Call StartRecording;
                             RecorderTurn 2 (Returned loud)]))).
Proof.
  apply (workers_end_at_inactive 48000 1024 300 46 []
           [Call Activate; Call StartRecording]
           [Call Activate]
           [Call StartRecording; RecorderTurn 2 (Returned loud)]
           PauseRecording Deactivate PAUSED
           1 (Returned loud) (Returned "oi"%string)).
  - constructor.
  - reflexivity.
  - discriminate.
  - reflexivity.
Defined.

(** C5, as stated, fails.  From Recording, after [deactivate] and one turn
    of each worker, both threads are out of their loops; [activate] and
    [start_recording] do not bring them back. *)
Lemma workers_do_not_outlive_inactive :
  let between :=
    [RecorderTurn 1 (Returned loud); TranscriberTurn (Returned "oi"%string)] in
  let back :=
    run started
        (Call Deactivate :: between ++ [Call Activate; Call StartRecording]) in
  ¬ workers_outlive_inactive started between
  /\ fsm_state back = RECORDING
  /\ rec_thread back = Recorder.Finished
  /\ tr_thread back = Transcriber.Finished
  /\ step back (RecorderTurn 2 (Returned loud)) = back.
Proof.
  cbv zeta. split; [|repeat split; by_evaluation].
  intros ((frames & k & Hth) & _). vm_compute in Hth. discriminate.
Qed.

(** ** An error of the engine *)

(** Whatever [model.transcribe] does, the file taken from the queue is
    removed; when it raises, the thread is dead after the turn. *)
Lemma transcriber_turn_processes (sys : System) transcribed audio_file rest :
  transcribing sys -> queue sys = audio_file :: rest ->
  let sys' := step sys (TranscriberTurn transcribed) in
  file sys' audio_file = None
  /\ queue sys' = rest
  /\ tr_thread sys'
     = match transcribed with
       | Returned _ => Transcriber.Looping
       | Raised e => Transcriber.Crashed e
       end.
Proof.
  intros (Ht & Ha & Hth) Hq. cbv zeta. rewrite step_transcriber.
  unfold file, queue, tr_thread, Transcriber.turn in *. simpl.
  rewrite Hth, Ht, Ha, Hq. simpl.
  destruct transcribed as [result|e]; simpl.
  - destruct (decide (strip result = EmptyString)); simpl;
      by rewrite lookup_delete_eq.
  - by rewrite lookup_delete_eq.
Qed.

(** Without an error both segments are transcribed and typed, in order. *)
Example two_segments_transcribed :
  let done :=
    run two_segments_queued
        [TranscriberTurn (Returned " oi "%string);
         TranscriberTurn (Returned "ola"%string)] in
  typed done = ["oi "%string; "ola "%string]
  /\ queue done = [] /\ file done 2 = None /\ file done 4 = None
  /\ tr_thread done = Transcriber.Looping.
Proof. cbv zeta. repeat split; by_evaluation. Qed.

(** C4, on the code.  Two segments are queued and the transcriber
    processes.  The engine raises on the first: its file is removed, and
    the exception, which nothing catches, ends the thread.  The turn that
    would have been the thread's next does nothing: the second segment
    stays in the queue, its file stays in the directory, and nothing is
    typed, although the engine would have returned a text. *)
Lemma engine_error_ends_transcriber :
  let after_error :=
    step two_segments_queued (TranscriberTurn (Raised RuntimeError)) in
  let after_next :=
    step after_error (TranscriberTurn (Returned "ola"%string)) in
  queue two_segments_queued = [2; 4]
  /\ file two_segments_queued 2 = Some [loud]
  /\ file two_segments_queued 4 = Some [hush; loud]
  /\ transcribing two_segments_queued
  /\ tr_thread after_error = Transcriber.Crashed RuntimeError
  /\ file after_error 2 = None
  /\ queue after_error = [4]
  /\ after_next = after_error
  /\ queue after_next = [4]
  /\ file after_next 4 = Some [hush; loud]
  /\ typed after_next = [].
Proof.
  cbv zeta. repeat split; by_evaluation.
Qed.

(* ------------------------------------------------------------------------- *)
(** ** Observers *)
(* ------------------------------------------------------------------------- *)

Lemma register_loop {W} (cbs : list (Callback W)) (sm : StateManager W) :
  foldl (fun sm cb => on_state_change cb sm) sm cbs
  = mkStateManager (_state sm) (_callbacks sm ++ cbs).
Proof.
  revert sm. induction cbs as [|cb cbs IH]; intros [s l]; simpl.
  - by rewrite app_nil_r.
  - rewrite IH. simpl. by rewrite <- app_assoc.
Qed.

Lemma observed_by_fields (flags : list bool) (s : AppState) :
  observed_by flags s = mkStateManager s (imap logger flags).
Proof. unfold observed_by. by rewrite register_loop. Qed.

Lemma _notify_loop_loggers (flags : list bool) (d : AppState) :
  forall (n : nat) (log : Log),
    _notify_loop (imap (fun i => logger (n + i)) flags) d log
    = (Returned (), log ++ imap (fun i _ => ((n + i)%nat, d)) flags).
Proof.
  induction flags as [|b flags IH]; intros n log.
  - simpl. by rewrite app_nil_r.
  - rewrite !imap_cons.
    assert (Hstep : forall rest,
               _notify_loop (logger (n + 0) b :: rest) d log
               = _notify_loop rest d (log ++ [((n + 0)%nat, d)])).
    { intros rest. simpl. by destruct b. }
    rewrite Hstep.
    rewrite (imap_ext _ (fun i => logger (S n + i)) flags)
      by (intros i x _; simpl; f_equal; lia).
    rewrite IH. rewrite <- app_assoc. simpl. do 3 f_equal.
    apply imap_ext. intros i x _. simpl. f_equal. lia.
Qed.

Lemma call_loggers (flags : list bool) (s : AppState) (op : Op) (log : Log) :
  call op (observed_by flags s) log
  = (Returned (),
     match transition_table s op with
     | Some d => (observed_by flags d, log ++ told flags d)
     | None => (observed_by flags s, log)
     end).
Proof.
  rewrite !observed_by_fields.
  assert (Hto : forall d,
             transition_to d (mkStateManager s (imap logger flags)) log
             = (Returned (), (observed_by flags d, log ++ told flags d))).
  { intros d. unfold transition_to, _notify, set_state. simpl.
    change (imap logger flags) with (imap (fun i => logger (0 + i)) flags).
    rewrite (_notify_loop_loggers flags d 0 log).
    by rewrite observed_by_fields. }
  destruct op, s; simpl; unfold activate, deactivate, start_recording,
    pause_recording, stop_app; simpl; rewrite ?Hto; try reflexivity.
Qed.

(** X1.  Over any sequence of calls, every registered observer is told
    every state the machine moves to, once per move, in the order of the
    moves and, within a move, in registration order, whether or not the
    observers before it raise; a call that is illegal in the current state
    tells nobody.  Every call returns, and the final state is the
    destination of the last legal call. *)
Theorem every_observer_is_told_once_in_order
    (flags : list bool) (ops : list Op) (s : AppState) (log : Log) :
  call_all ops (observed_by flags s) log
  = (replicate (length ops) (Returned ()),
     (observed_by flags (List.last (legal_destinations s ops) s),
      log ++ concat (told flags <$> legal_destinations s ops))).
Proof.
  revert s log. induction ops as [|op ops IH]; intros s log.
  - simpl. by rewrite app_nil_r.
  - cbn [call_all]. rewrite call_loggers.
    destruct (transition_table s op) as [d|] eqn:Hd.
    + rewrite IH. cbn [legal_destinations]. rewrite Hd.
      rewrite last_cons_default, fmap_cons. cbn [concat length replicate].
      by rewrite <- app_assoc.
    + rewrite IH. cbn [legal_destinations]. by rewrite Hd.
Qed.

(** X2.  Calling an operation a second time right after the first leaves
    the manager as the first call left it.  For [activate], [deactivate],
    [start_recording] and [pause_recording] the second call tells no
    observer anything; [stop_app] tells every observer INACTIVE again. *)
Theorem second_call_is_silent_except_stop_app
    (flags : list bool) (s : AppState) (op : Op) (log : Log) :
  let first := call op (observed_by flags s) log in
  call op first.2.1 first.2.2
  = (Returned (),
     (first.2.1,
      match op with
      | StopApp => first.2.2 ++ told flags INACTIVE
      | _ => first.2.2
      end)).
Proof.
  cbv zeta. rewrite call_loggers.
  destruct op, s; cbn [transition_table fst snd]; by rewrite call_loggers.
Qed.

(* ------------------------------------------------------------------------- *)
(** ** The flags of the workers *)
(* ------------------------------------------------------------------------- *)

Lemma legal_destinations_app (a b : list Op) :
  forall s : AppState,
    legal_destinations s (a ++ b)
    = legal_destinations s a
      ++ legal_destinations (List.last (legal_destinations s a) s) b.
Proof.
  induction a as [|op a IH]; intros s; [done|].
  simpl. destruct (transition_table s op) as [d|]; [|apply IH].
  rewrite IH. by rewrite last_cons_default.
Qed.

Lemma fsm_state_boot (r : Recorder.t) (others : list (Callback Workers)) :
  fsm_state (boot r others) = INACTIVE.
Proof.
  unfold fsm_state, boot, register_all. simpl. by rewrite register_loop.
Qed.

(** In every state the system reaches, the state of the machine and the
    four flags are what the calls made so far say. *)
Lemma reachable_flags (sr cs thr n : Z) (others : list (Callback Workers))
    (schedule : list Event) :
  Forall passive others ->
  let sys := run (boot (Recorder.fresh sr cs thr n) others) schedule in
  let visited := legal_destinations INACTIVE (calls schedule) in
  fsm_state sys = List.last visited INACTIVE
  /\ Recorder._recording (recorder (workers sys))
     = bool_decide (fsm_state sys = RECORDING)
  /\ Transcriber._process_allowed (transcriber (workers sys))
     = bool_decide (fsm_state sys = RECORDING)
  /\ Recorder._terminate (recorder (workers sys))
     = bool_decide (INACTIVE ∈ visited)
  /\ Transcriber._terminate (transcriber (workers sys))
     = bool_decide (INACTIVE ∈ visited).
Proof.
  intros Hp. cbv zeta.
  induction schedule as [|ev schedule IH] using rev_ind.
  - change (run (boot (Recorder.fresh sr cs thr n) others) [])
      with (boot (Recorder.fresh sr cs thr n) others).
    rewrite fsm_state_boot. by repeat split.
  - pose proof (reachable_consistent sr cs thr n others schedule Hp) as Hc.
    destruct IH as (Hs & Hrec & Hpa & Hrt & Htt).
    rewrite run_snoc. unfold calls. rewrite omap_app. fold (calls schedule).
    rewrite legal_destinations_app. rewrite <- Hs.
    set (sys := run (boot (Recorder.fresh sr cs thr n) others) schedule) in *.
    set (visited := legal_destinations INACTIVE (calls schedule)) in *.
    destruct ev as [op|now read|transcribed]; simpl omap.
    + rewrite step_call by apply Hc. simpl legal_destinations.
      destruct (transition_table (fsm_state sys) op) as [d|] eqn:Hd.
      * unfold fsm_state, state. simpl.
        destruct (handle_state_change_fields d (recorder (workers sys)))
          as (_ & _ & _ & Hr' & Ht').
        destruct (transcriber_handle_fields d (transcriber (workers sys)))
          as (_ & Hp' & Htt').
        rewrite Hr', Ht', Hp', Htt', Hrt, Htt.
        rewrite List.last_last.
        assert (Hin : bool_decide (INACTIVE ∈ visited)
                      || bool_decide (d = INACTIVE)
                      = bool_decide (INACTIVE ∈ visited ++ [d])).
        { apply eq_true_iff_eq.
          rewrite orb_true_iff, !bool_decide_eq_true, elem_of_app,
            list_elem_of_singleton.
          split; (intros [?|?]; [by left|by right]). }
        rewrite Hin. by repeat split.
      * rewrite app_nil_r. by repeat split.
    + rewrite app_nil_r. rewrite step_recorder.
      destruct (turn_fields now read (recorder (workers sys)) (store sys))
        as (_ & _ & Ht' & Hr').
      unfold fsm_state in *. simpl. rewrite Ht', Hr'. by repeat split.
    + rewrite app_nil_r. rewrite step_transcriber.
      destruct (transcriber_turn_flags transcribed (transcriber (workers sys))
                  (store sys) (typed sys)) as (Ht' & Hp').
      unfold fsm_state in *. simpl. rewrite Ht', Hp'. by repeat split.
Qed.

(** X3.  In every state the system reaches from its start, the state of
    the machine is the destination of the last legal call; the recorder's
    [_recording] and the transcriber's [_process_allowed] are set exactly
    when that state is RECORDING; and [_terminate] of either worker is set
    exactly when some call so far has moved the machine to INACTIVE
    ([stop_app] while INACTIVE included): once set it is never cleared. *)
Theorem flags_follow_the_state_machine
    (sample_rate chunk_size threshold n : Z)
    (others : list (Callback Workers)) (schedule : list Event) :
  Forall passive others ->
  let sys :=
    run (boot (Recorder.fresh sample_rate chunk_size threshold n) others)
        schedule in
  let visited := legal_destinations INACTIVE (calls schedule) in
  fsm_state sys = List.last visited INACTIVE
  /\ Recorder._recording (recorder (workers sys))
     = bool_decide (fsm_state sys = RECORDING)
  /\ Transcriber._process_allowed (transcriber (workers sys))
     = bool_decide (fsm_state sys = RECORDING)
  /\ Recorder._terminate (recorder (workers sys))
     = bool_decide (INACTIVE ∈ visited)
  /\ Transcriber._terminate (transcriber (workers sys))
     = bool_decide (INACTIVE ∈ visited).
Proof. apply reachable_flags. Qed.

Lemma flags_follow_the_state_machine_witness :
  let schedule :=
    [Call Activate; Call StartRecording; RecorderTurn 1 (Returned loud);
     Call Deactivate; Call Activate; Call StartRecording] in
  let sys :=
    run (boot (Recorder.fresh 48000 1024 300 46) [keyboard_listener_callback])
        schedule in
  let visited := legal_destinations INACTIVE (calls schedule) in
  fsm_state sys = List.last visited INACTIVE
  /\ Recorder._recording (recorder (workers sys))
     = bool_decide (fsm_state sys = RECORDING)
  /\ Transcriber._process_allowed (transcriber (workers sys))
     = bool_decide (fsm_state sys = RECORDING)
  /\ Recorder._terminate (recorder (workers sys))
     = bool_decide (INACTIVE ∈ visited)
  /\ Transcriber._terminate (transcriber (workers sys))
     = bool_decide (INACTIVE ∈ visited).
Proof.
  apply (flags_follow_the_state_machine 48000 1024 300 46
           [keyboard_listener_callback]
           [Call Activate; Call StartRecording; RecorderTurn 1 (Returned loud);
            Call Deactivate; Call Activate; Call StartRecording]).
  repeat constructor.
Defined.

(* ------------------------------------------------------------------------- *)
(** ** Outside Recording *)
(* ------------------------------------------------------------------------- *)

Lemma not_recording_flags (sr cs thr n : Z) (others : list (Callback Workers))
    (schedule : list Event) :
  Forall passive others ->
  let sys := run (boot (Recorder.fresh sr cs thr n) others) schedule in
  fsm_state sys ≠ RECORDING ->
  Recorder._recording (recorder (workers sys)) = false
  /\ Transcriber._process_allowed (transcriber (workers sys)) = false.
Proof.
  intros Hp sys Hs.
  destruct (reachable_flags sr cs thr n others schedule Hp)
    as (_ & Hrec & Hpa & _).
  fold sys in Hrec, Hpa. rewrite Hrec, Hpa.
  by rewrite bool_decide_eq_false_2.
Qed.

(** A turn of a recorder that has not been told to record does not
    depend on the stream; unless it has been told to terminate, it changes
    nothing. *)
Lemma recorder_turn_not_recording (sys : System) now read read' :
  Recorder._recording (recorder (workers sys)) = false ->
  step sys (RecorderTurn now read) = step sys (RecorderTurn now read')
  /\ (Recorder._terminate (recorder (workers sys)) = false ->
      step sys (RecorderTurn now read) = sys).
Proof.
  intros Hrec. rewrite !step_recorder.
  destruct sys as [sm [r t] st ty]. simpl in *.
  destruct (Recorder.thread r) as [frames k| |e] eqn:Hth.
  - destruct (Recorder._terminate r) eqn:Ht.
    + rewrite !(turn_terminate now _ r st frames k) by done. done.
    + rewrite !(turn_idle now _ r st frames k) by done. done.
  - rewrite !turn_gone by (intros ??; by rewrite Hth). done.
  - rewrite !turn_gone by (intros ??; by rewrite Hth). done.
Qed.

(** X4.  In every state the system reaches in which the machine is not in
    RECORDING, a turn of the recorder does not call [stream.read]: what
    the stream would have returned, or raised, makes no difference; and
    unless the recorder has been told to terminate, the turn changes
    nothing at all (buffer, counter, files and queue are kept). *)
Theorem recorder_reads_only_while_recording
    (sample_rate chunk_size threshold n : Z)
    (others : list (Callback Workers)) (schedule : list Event)
    (now : Z) (read read' : completion Chunk) :
  let sys :=
    run (boot (Recorder.fresh sample_rate chunk_size threshold n) others)
        schedule in
  Forall passive others ->
  fsm_state sys ≠ RECORDING ->
  step sys (RecorderTurn now read) = step sys (RecorderTurn now read')
  /\ (Recorder._terminate (recorder (workers sys)) = true
      \/ step sys (RecorderTurn now read) = sys).
Proof.
  intros sys Hp Hs.
  destruct (recorder_turn_not_recording sys now read read') as [Hsame Hidle].
  { by apply (not_recording_flags sample_rate chunk_size threshold n others
                schedule Hp). }
  split; [done|].
  destruct (Recorder._terminate (recorder (workers sys))); [by left|].
  right. by apply Hidle.
Qed.

Lemma recorder_reads_only_while_recording_witness :
  let sys := run count_one_recording [Call PauseRecording] in
  step sys (RecorderTurn 2 (Returned hush))
  = step sys (RecorderTurn 2 (Raised OSError))
  /\ (Recorder._terminate (recorder (workers sys)) = true
      \/ step sys (RecorderTurn 2 (Returned hush)) = sys).
Proof.
  apply (recorder_reads_only_while_recording 48000 1024 300 1 []
           [Call Activate; Call StartRecording; RecorderTurn 1 (Returned loud);
            Call PauseRecording]
           2 (Returned hush) (Raised OSError)).
  - constructor.
  - by_evaluation.
Defined.



(* ------------------------------------------------------------------------- *)
(** ** The audio that goes through the recorder *)
(* ------------------------------------------------------------------------- *)



Lemma read_by_not_reading (sys : System) (ev : Event) :
  reads_audio sys = false -> read_by sys ev = [].
Proof.
  intros H. destruct ev as [op|now [data|e]|transcribed]; simpl; try done.
  by rewrite H.
Qed.

Lemma reads_audio_gone (sys : System) :
  recorder_gone sys -> reads_audio sys = false.
Proof.
  unfold recorder_gone, reads_audio. intros Hg.
  destruct (rec_thread sys) as [frames k| |e]; [by destruct (Hg frames k)|done..].
Qed.

(** A recorder that has left [run] reads nothing more. *)
Lemma audio_read_gone (schedule : list Event) :
  forall sys : System,
    consistent sys -> recorder_gone sys -> audio_read sys schedule = [].
Proof.
  induction schedule as [|ev rest IH]; intros sys Hc Hg; [done|].
  simpl. rewrite read_by_not_reading by by apply reads_audio_gone.
  apply IH; [by apply consistent_step|].
  destruct (recorder_gone_forever [ev] sys Hc Hg) as [Hth _].
  rewrite run_one in Hth. unfold recorder_gone. by rewrite Hth.
Qed.





(* ------------------------------------------------------------------------- *)
(** ** The queue *)
(* ------------------------------------------------------------------------- *)

Lemma queue_moves_appended (q more : list Z) :
  take (length q - length (q ++ more)) q ++ (q ++ more)
  = q ++ drop (length q) (q ++ more).
Proof.
  rewrite length_app.
  replace (length q - (length q + length more))%nat with 0%nat by lia.
  by rewrite drop_length_app.
Qed.

Lemma queue_moves_same (q : list Z) :
  take (length q - length q) q ++ q = q ++ drop (length q) q.
Proof. by rewrite Nat.sub_diag, drop_all, app_nil_r. Qed.

Lemma queue_moves_head (f : Z) (rest : list Z) :
  take (length (f :: rest) - length rest) (f :: rest) ++ rest
  = (f :: rest) ++ drop (length (f :: rest)) rest.
Proof.
  simpl length.
  replace (S (length rest) - length rest)%nat with 1%nat by lia.
  rewrite drop_ge by lia. simpl. by rewrite app_nil_r.
Qed.

(** One step takes paths from the head of the queue and appends paths to
    its end. *)
Lemma step_queue (sys : System) (ev : Event) :
  got_by sys ev ++ queue (step sys ev) = queue sys ++ put_by sys ev.
Proof.
  unfold got_by, put_by.
  destruct ev as [op|now read|transcribed].
  - assert (Hq : queue (step sys (Call op)) = queue sys).
    { unfold queue, step.
      by destruct (call op (state_manager sys) (workers sys)) as [c [sm w]]. }
    rewrite Hq. apply queue_moves_same.
  - rewrite step_recorder. unfold queue. simpl.
    destruct (turn_store now read (recorder (workers sys)) (store sys))
      as [->|(seg & _ & ->)].
    + apply queue_moves_same.
    + rewrite write_and_put_queue. apply queue_moves_appended.
  - rewrite step_transcriber. unfold queue. simpl.
    destruct (transcriber_turn_store transcribed (transcriber (workers sys))
                (store sys) (typed sys)) as [->|(f & rest & Hq & ->)].
    + apply queue_moves_same.
    + rewrite Hq. simpl audio_queue. apply queue_moves_head.
Qed.

(** X7.  The queue is first in, first out, and nothing else happens to
    it.  From any state and over any schedule: the paths taken from the
    queue, in the order taken, followed by the paths still queued, are the
    paths queued at the start followed by the paths put, in the order
    put.  So a path is taken only after every path put before it, no path
    is dropped and none is taken twice. *)
Theorem queue_is_first_in_first_out (sys : System) (schedule : list Event) :
  all_got sys schedule ++ queue (run sys schedule)
  = queue sys ++ all_put sys schedule.
Proof.
  revert sys. induction schedule as [|ev rest IH]; intros sys.
  - simpl. by rewrite app_nil_r.
  - rewrite run_cons. simpl all_got. simpl all_put.
    rewrite <- app_assoc, IH, !app_assoc. f_equal. apply step_queue.
Qed.

(* ------------------------------------------------------------------------- *)
(** ** Silence only *)
(* ------------------------------------------------------------------------- *)

Lemma read_silent_all (r0 : Recorder.t) (sys : System) now data frames :
  reading r0 sys frames (len frames) -> silent r0 data ->
  reading r0 (step sys (RecorderTurn now (Returned data)))
          (frames ++ [data]) (len (frames ++ [data]))
  /\ enqueued_by sys (RecorderTurn now (Returned data)) = [].
Proof.
  intros [Hcap Hcfg] Hsi.
  assert (counted (recorder (workers sys)) data (len frames)
          = len (frames ++ [data])) as Hk.
  { rewrite (counted_as r0) by apply Hcfg. unfold counted.
    unfold silent in Hsi. rewrite Hsi, len_app. done. }
  destruct (step_read_append sys now data frames (len frames) Hcap)
    as [Hcap' Henq].
  { rewrite Hk. lia. }
  rewrite Hk in Hcap'. split; [split|]; [done| |done].
  by apply configured_as_recorder_turn.
Qed.

Lemma read_silent_all_stream (r0 : Recorder.t) (stream : list (Z * Chunk)) :
  Forall (fun tc => silent r0 tc.2) stream ->
  forall (sys : System) frames,
    reading r0 sys frames (len frames) ->
    reading r0 (run sys (reads stream)) (frames ++ chunks stream)
            (len (frames ++ chunks stream))
    /\ enqueued sys (reads stream) = [].
Proof.
  intros Hall. induction Hall as [|tc stream Htc Hall IH]; intros sys frames Hrd.
  { simpl. by rewrite app_nil_r. }
  destruct (read_silent_all r0 sys tc.1 tc.2 frames Hrd Htc) as [Hrd' Henq].
  destruct (IH _ _ Hrd') as [Hrd'' Henq'].
  rewrite reads_cons, run_cons, enqueued_cons, Henq, Henq'.
  split; [|done].
  replace (frames ++ chunks (tc :: stream))
    with ((frames ++ [tc.2]) ++ chunks stream)
    by (by rewrite <- app_assoc).
  done.
Qed.

(** X8.  Silence alone is never cut and never dropped.  When the counter
    of the reading recorder equals the length of its buffer (as it does
    with an empty buffer, and right after a split), then however many
    silent chunks it reads next, and whatever the required count is, no
    segment is enqueued: every chunk is appended to the buffer, which
    grows by the length of the stream, and the counter stays equal to the
    length of the buffer. *)
Theorem silence_alone_is_never_enqueued
    (sys : System) (frames : list Chunk) (stream : list (Z * Chunk)) :
  capturing sys frames (len frames) ->
  Forall (fun tc => silent (recorder (workers sys)) tc.2) stream ->
  capturing (run sys (reads stream)) (frames ++ chunks stream)
            (len frames + len stream)
  /\ enqueued sys (reads stream) = [].
Proof.
  intros Hcap Hall.
  destruct (read_silent_all_stream (recorder (workers sys)) stream Hall
              sys frames) as [[Hcap' _] Henq]; [done|].
  by rewrite len_app, len_chunks in Hcap'.
Qed.

Lemma silence_alone_is_never_enqueued_witness :
  capturing (run zero_count_recording
               (reads [(1, hush); (2, hush); (3, hush)]))
            ([] ++ chunks [(1, hush); (2, hush); (3, hush)])
            (len (@nil Chunk) + len [(1, hush); (2, hush); (3, hush)])
  /\ enqueued zero_count_recording (reads [(1, hush); (2, hush); (3, hush)])
     = [].
Proof.
  apply (silence_alone_is_never_enqueued zero_count_recording []
           [(1, hush); (2, hush); (3, hush)]).
  - split; [|split]; by_evaluation.
  - repeat constructor.
Defined.

(* ------------------------------------------------------------------------- *)
(** ** File names *)
(* ------------------------------------------------------------------------- *)

(** Recorder turns that enqueue nothing leave the store and the
    transcriber as they were. *)
Lemma quiet_reads (stream : list (Z * Chunk)) :
  forall sys : System,
    enqueued sys (reads stream) = [] ->
    store (run sys (reads stream)) = store sys
    /\ transcriber (workers (run sys (reads stream)))
       = transcriber (workers sys).
Proof.
  induction stream as [|tc stream IH]; intros sys Henq; [done|].
  rewrite reads_cons, enqueued_cons in Henq.
  apply app_eq_nil in Henq as [Hby Hrest].
  rewrite reads_cons, run_cons.
  destruct (IH _ Hrest) as [Hst Htr]. rewrite Hst, Htr.
  rewrite step_recorder. simpl. split; [|done].
  destruct (turn_store tc.1 (Returned tc.2) (recorder (workers sys))
              (store sys)) as [Hsame|(seg & _ & Hw)]; [done|].
  rewrite (enqueued_by_write sys _ tc.1 seg) in Hby; [done|].
  by rewrite step_recorder.
Qed.

(** A recorder turn that enqueues a segment has written it at the clock
    reading of the turn. *)
Lemma enqueued_by_recorder_store (sys : System) now read (seg : Segment) :
  enqueued_by sys (RecorderTurn now read) = [Some seg] ->
  store (step sys (RecorderTurn now read))
  = Recorder.write_and_put now seg (store sys)
  /\ transcriber (workers (step sys (RecorderTurn now read)))
     = transcriber (workers sys).
Proof.
  intros Henq. split; [|by rewrite step_recorder].
  destruct (enqueued_by_recorder sys now read)
    as [Hno|(seg' & _ & Hby & Hst)]; [by rewrite Hno in Henq|].
  rewrite Hby in Henq. by injection Henq as ->.
Qed.

(** X9.  A file is named after the clock reading rounded to the second, so
    two segments written within one second share a path.  If, with an
    empty queue and the transcriber at work, the recorder enqueues a
    segment at clock reading [now] and, after reads that enqueue nothing,
    enqueues another one at the same reading, then the queue holds that
    path twice and the file holds only the second segment; and when the
    transcriber has processed the first entry, the path is still queued
    but its file is gone. *)
Theorem segments_of_one_second_share_a_file
    (sys : System) (now : Z) (read1 read2 : completion Chunk)
    (seg1 seg2 : Segment) (stream : list (Z * Chunk))
    (transcribed : completion string) :
  let s1 := step sys (RecorderTurn now read1) in
  let s2 := run s1 (reads stream) in
  let s3 := step s2 (RecorderTurn now read2) in
  let s4 := step s3 (TranscriberTurn transcribed) in
  queue sys = [] -> transcribing sys ->
  enqueued_by sys (RecorderTurn now read1) = [Some seg1] ->
  enqueued s1 (reads stream) = [] ->
  enqueued_by s2 (RecorderTurn now read2) = [Some seg2] ->
  queue s3 = [now; now] /\ file s3 now = Some seg2
  /\ queue s4 = [now] /\ file s4 now = None.
Proof.
  intros s1 s2 s3 s4 Hq Htr H1 Hmid H2.
  destruct (enqueued_by_recorder_store sys now read1 seg1 H1) as [Hst1 Ht1].
  destruct (quiet_reads stream s1 Hmid) as [Hst2 Ht2].
  destruct (enqueued_by_recorder_store s2 now read2 seg2 H2) as [Hst3 Ht3].
  fold s1 in Hst1, Ht1. fold s2 in Hst2, Ht2. fold s3 in Hst3, Ht3.
  assert (Hq3 : queue s3 = [now; now]).
  { unfold queue in *. rewrite Hst3, write_and_put_queue, Hst2, Hst1,
      write_and_put_queue, Hq. done. }
  assert (Hf3 : file s3 now = Some seg2).
  { unfold file. rewrite Hst3, write_and_put_files. apply lookup_insert_eq. }
  assert (Htr3 : transcribing s3).
  { unfold transcribing, tr_thread in *. by rewrite Ht3, Ht2, Ht1. }
  destruct (transcriber_turn_processes s3 transcribed now [now] Htr3 Hq3)
    as (Hf4 & Hq4 & _).
  done.
Qed.

Lemma segments_of_one_second_share_a_file_witness :
  let s1 := step count_one_recording (RecorderTurn 2 (Returned hush)) in
  let s2 := run s1 (reads [(2, loud)]) in
  let s3 := step s2 (RecorderTurn 2 (Returned hush)) in
  let s4 := step s3 (TranscriberTurn (Returned "oi"%string)) in
  queue s3 = [2; 2] /\ file s3 2 = Some [hush; loud]
  /\ queue s4 = [2] /\ file s4 2 = None.
Proof.
  apply (segments_of_one_second_share_a_file count_one_recording 2
           (Returned hush) (Returned hush) [loud] [hush; loud] [(2, loud)]
           (Returned "oi"%string)).
  - by_evaluation.
  - split; [|split]; by_evaluation.
  - by_evaluation.
  - by_evaluation.
  - by_evaluation.
Defined.

(* ------------------------------------------------------------------------- *)
(** ** What is typed *)
(* ------------------------------------------------------------------------- *)







(* ------------------------------------------------------------------------- *)
(** ** After Inactive *)
(* ------------------------------------------------------------------------- *)

Lemma step_call_store (sys : System) (op : Op) :
  store (step sys (Call op)) = store sys
  /\ typed (step sys (Call op)) = typed sys.
Proof.
  unfold step.
  by destruct (call op (state_manager sys) (workers sys)) as [c [sm w]].
Qed.





(* ------------------------------------------------------------------------- *)
(** ** The counter of silent chunks *)
(* ------------------------------------------------------------------------- *)

(** X12.  In every state the system reaches from its start in which the
    recorder is in its loop, the counter [silent_chunks] is the length of
    the run of silent chunks that the buffer [frames] ends with: the
    buffer is some chunks followed by exactly that many silent ones, and
    the chunk before them, if there is one, is not silent.  So the counter
    is never negative and never exceeds the length of the buffer. *)
Theorem counter_is_the_trailing_silent_run
    (sample_rate chunk_size threshold n : Z)
    (others : list (Callback Workers)) (schedule : list Event)
    (frames : list Chunk) (k : Z) :
  let sys :=
    run (boot (Recorder.fresh sample_rate chunk_size threshold n) others)
        schedule in
  Forall passive others ->
  rec_thread sys = Recorder.Looping frames k ->
  trailing_silence (recorder (workers sys)) frames k
  /\ 0 <= k <= len frames.
Proof.
  intros sys Hp Hth.
  destruct (reachable_consistent sample_rate chunk_size threshold n others
              schedule Hp) as (_ & Hshape & _).
  fold sys in Hshape. unfold buffer_shape in Hshape.
  unfold rec_thread in Hth. rewrite Hth in Hshape.
  split; [done|].
  destruct Hshape as (front & tail & -> & <- & _).
  rewrite len_app. pose proof (len_nonneg front). pose proof (len_nonneg tail).
  lia.
Qed.

Lemma counter_is_the_trailing_silent_run_witness :
  trailing_silence (recorder (workers count_two_recording)) [loud; hush] 1
  /\ 0 <= 1 <= len [loud; hush].
Proof.
  apply (counter_is_the_trailing_silent_run 48000 1024 300 2 []
           [Call Activate; Call StartRecording;
            RecorderTurn 1 (Returned loud); RecorderTurn 2 (Returned hush)]
           [loud; hush] 1).
  - constructor.
  - by_evaluation.
Defined.

(* ------------------------------------------------------------------------- *)
(** ** Configurations that build no recorder *)
(* ------------------------------------------------------------------------- *)

Lemma float_of_int_0 : float_of_int 0 = Returned (S754_zero false).
Proof. reflexivity. Qed.

(** X13.  [Recorder.__init__] raises an exception, and builds no
    recorder, whenever the chunk size is 0 (the division by it raises) or
    the silence duration is an infinity or NaN ([int] of the quotient
    raises, if nothing before it did), whatever the other arguments
    are. *)
Theorem init_raises_on_chunk_size_0_and_on_non_finite_duration
    (sample_rate chunk_size threshold : Z) (silence_duration : float) :
  chunk_size = 0 \/ is_finite silence_duration = false ->
  exists e : exn,
    Recorder.__init__ sample_rate chunk_size threshold silence_duration
    = Raised e.
Proof.
  intros Hbad. unfold Recorder.__init__, float_mul_int, float_div_int.
  destruct (float_of_int sample_rate) as [x|e] eqn:Hx; [|by exists e].
  simpl. destruct Hbad as [->|Hd].
  - rewrite float_of_int_0. simpl. by eexists.
  - destruct (float_of_int chunk_size) as [y|e] eqn:Hy; [|by exists e].
    simpl. destruct (is_zero y) eqn:Hz; [by eexists|].
    simpl.
    destruct silence_duration as [sd|sd| |sd md ed]; try discriminate Hd;
      destruct x as [sx|sx| |sx mx ex];
      destruct y as [sy|sy| |sy my ey];
      try discriminate Hz; simpl; by eexists.
Qed.

Lemma init_raises_on_chunk_size_0_and_on_non_finite_duration_witness :
  (exists e : exn, Recorder.__init__ 48000 0 300 one = Raised e)
  /\ (exists e : exn,
        Recorder.__init__ 48000 1024 300 (S754_infinity false) = Raised e).
Proof.
  split.
  - apply (init_raises_on_chunk_size_0_and_on_non_finite_duration
             48000 0 300 one). by left.
  - apply (init_raises_on_chunk_size_0_and_on_non_finite_duration
             48000 1024 300 (S754_infinity false)). by right.
Defined.

(* ------------------------------------------------------------------------- *)
(** ** One observer *)
(* ------------------------------------------------------------------------- *)

(** A call on a manager with a single observer. *)
Lemma call_single {W} (cb : Callback W) (op : Op) (self : StateManager W)
    (w : W) :
  _callbacks self = [cb] ->
  call op self w
  = (Returned (),
     match transition_table (_state self) op with
     | Some d => (set_state self d, (cb d w).2)
     | None => (self, w)
     end).
Proof.
  destruct self as [s cbs]. simpl. intros ->.
  assert (Hto : forall d,
             transition_to d (mkStateManager s [cb]) w
             = (Returned (), (mkStateManager d [cb], (cb d w).2))).
  { intros d. unfold transition_to, _notify, set_state. simpl.
    by destruct (cb d w) as [[u|e] w']. }
  destruct op, s; simpl; unfold activate, deactivate, start_recording,
    pause_recording, stop_app, set_state; simpl; rewrite ?Hto; reflexivity.
Qed.

(* ------------------------------------------------------------------------- *)
(** ** The keyboard listener *)
(* ------------------------------------------------------------------------- *)

Section KeyboardListenerFacts.
Import KeyboardListener.

Lemma called_spec (op : Op) (d : Desk) :
  _callbacks (manager d) = [callback] ->
  called op d
  = match transition_table (_state (manager d)) op with
    | Some s => {| manager := set_state (manager d) s;
                   world := (callback s (world d)).2 |}
    | None => d
    end.
Proof.
  intros Hcb. unfold called. rewrite (call_single callback) by done.
  destruct (transition_table _ _); [done|by destruct d].
Qed.

Lemma callback_keeps_hotkeys (s : AppState) (w : World) :
  hotkeys (callback s w).2 = hotkeys w
  /\ (thread (listener (callback s w).2) = Listening
      <-> thread (listener w) = Listening).
Proof.
  destruct w as [[stop th] keys]. unfold callback, _handle_state_change.
  destruct s, th; simpl; by split.
Qed.

Lemma called_ok (op : Op) (d : Desk) : desk_ok d -> desk_ok (called op d).
Proof.
  intros [Hcb Hk]. rewrite called_spec by done.
  destruct (transition_table _ _) as [s|]; [|done].
  split; [done|]. simpl.
  destruct (callback_keeps_hotkeys s (world d)) as [-> Hth].
  rewrite Hk.
  destruct (thread (listener (world d))) eqn:H1;
    destruct (thread (listener (callback s (world d)).2)) eqn:H2;
    try done; (try by destruct Hth as [Hth _]; discriminate (Hth eq_refl));
    by destruct Hth as [_ Hth]; discriminate (Hth eq_refl).
Qed.

Lemma act_ok (d : Desk) (a : Action) : desk_ok d -> desk_ok (act d a).
Proof.
  intros Hok. destruct a as [op|key|]; simpl.
  - by apply called_ok.
  - destruct (bool_decide _); [by apply called_ok|done].
  - destruct Hok as [Hcb Hk]. split; [done|].
    destruct d as [sm [[stop th] keys]]. simpl in *.
    unfold turn. simpl. destruct th; simpl; try done.
    + by rewrite Hk.
    + destruct stop; simpl; [|done]. by rewrite Hk.
Qed.

Lemma acts_ok (schedule : list Action) :
  forall d : Desk, desk_ok d -> desk_ok (acts d schedule).
Proof.
  induction schedule as [|a rest IH]; intros d Hok; [done|].
  apply (IH (act d a)). by apply act_ok.
Qed.

Lemma act_ended (d : Desk) (a : Action) :
  _callbacks (manager d) = [callback] -> world d = ended ->
  _callbacks (manager (act d a)) = [callback] /\ world (act d a) = ended.
Proof.
  intros Hcb Hw.
  assert (Hcalled : forall op,
             _callbacks (manager (called op d)) = [callback]
             /\ world (called op d) = ended).
  { intros op. rewrite called_spec by done.
    destruct (transition_table _ _) as [s|]; [|done].
    simpl. split; [done|]. rewrite Hw. by destruct s. }
  destruct a as [op|key|]; simpl.
  - apply Hcalled.
  - rewrite Hw. simpl. done.
  - split; [done|]. by rewrite Hw.
Qed.

Lemma acts_ended (schedule : list Action) :
  forall d : Desk,
    _callbacks (manager d) = [callback] -> world d = ended ->
    world (acts d schedule) = ended.
Proof.
  induction schedule as [|a rest IH]; intros d Hcb Hw; [done|].
  destruct (act_ended d a Hcb Hw) as [Hcb' Hw']. by apply (IH (act d a)).
Qed.

(** A listener that has been told to stop is still told so after any
    action. *)
Lemma act_stopping (d : Desk) (a : Action) :
  _callbacks (manager d) = [callback] ->
  world d = stopping \/ world d = ended ->
  _callbacks (manager (act d a)) = [callback]
  /\ (world (act d a) = stopping \/ world (act d a) = ended).
Proof.
  intros Hcb [Hw|Hw]; [|destruct (act_ended d a Hcb Hw); by auto].
  assert (Hcalled : forall op,
             _callbacks (manager (called op d)) = [callback]
             /\ (world (called op d) = stopping
                 \/ world (called op d) = ended)).
  { intros op. rewrite called_spec by done.
    destruct (transition_table _ _) as [s|]; [|by auto].
    simpl. split; [done|]. left. rewrite Hw. by destruct s. }
  destruct a as [op|key|]; simpl.
  - apply Hcalled.
  - destruct (bool_decide _); [apply Hcalled|by auto].
  - split; [done|]. right. by rewrite Hw.
Qed.

Lemma acts_stopping (schedule : list Action) :
  forall d : Desk,
    _callbacks (manager d) = [callback] ->
    world d = stopping \/ world d = ended ->
    _callbacks (manager (acts d schedule)) = [callback]
    /\ (world (acts d schedule) = stopping
        \/ world (acts d schedule) = ended).
Proof.
  induction schedule as [|a rest IH]; intros d Hcb Hw; [done|].
  destruct (act_stopping d a Hcb Hw) as [Hcb' Hw']. by apply (IH (act d a)).
Qed.

(** X14.  The hotkeys do not survive the first INACTIVE.  When the
    listener thread is in its loop and a call moves the machine to
    INACTIVE, then, whatever is called or pressed in between (a new
    [activate] included), the thread's next turn removes both hotkeys and
    ends the thread; from then on, whatever is called, pressed or
    scheduled, the thread stays ended and no hotkey is registered, so a
    press of F8 or F9 does nothing; and a notification of READY makes the
    listener raise RuntimeError (a thread is started once), which
    [_notify] passes over. *)
Theorem hotkeys_end_with_the_first_inactive
    (schedule between later : list Action) (op : Op) (key : Key) :
  let d := acts boot schedule in
  let final := acts d (Called op :: between ++ Turn :: later) in
  thread (listener (world d)) = Listening ->
  transition_table (state (manager d)) op = Some INACTIVE ->
  world final = ended
  /\ act final (Pressed key) = final
  /\ callback READY (world final) = (Raised RuntimeError, world final).
Proof.
  intros d final Hth Hop.
  assert (Hok : desk_ok d) by (by apply acts_ok).
  destruct Hok as [Hcb Hk]. rewrite Hth in Hk.
  assert (Hstop : _callbacks (manager (act d (Called op))) = [callback]
                  /\ world (act d (Called op)) = stopping).
  { simpl. rewrite called_spec by done.
    unfold state in Hop. rewrite Hop. simpl. split; [done|].
    destruct (world d) as [[stop th] keys]. simpl in *. subst th keys.
    reflexivity. }
  destruct Hstop as [Hcb1 Hw1].
  destruct (acts_stopping between (act d (Called op)) Hcb1) as [Hcb2 Hw2];
    [by left|].
  assert (Hturn : world (act (acts (act d (Called op)) between) Turn) = ended).
  { change (turn (world (acts (act d (Called op)) between)) = ended).
    destruct Hw2 as [Hw2|Hw2]; by rewrite Hw2. }
  assert (Hfinal : world final = ended).
  { unfold final, acts. simpl. rewrite fold_left_app. simpl.
    by apply acts_ended. }
  split; [done|]. split.
  - simpl. by rewrite Hfinal.
  - by rewrite Hfinal.
Qed.

Lemma hotkeys_end_with_the_first_inactive_witness :
  let d := acts boot [Called Activate; Turn] in
  let final :=
    acts d (Called Deactivate
            :: [Called Activate; Pressed F8] ++ Turn
            :: [Called Activate; Turn; Pressed F8]) in
  world final = ended
  /\ act final (Pressed F8) = final
  /\ callback READY (world final) = (Raised RuntimeError, world final).
Proof.
  apply (hotkeys_end_with_the_first_inactive [Called Activate; Turn]
           [Called Activate; Pressed F8]
           [Called Activate; Turn; Pressed F8] Deactivate F8).
  - reflexivity.
  - reflexivity.
Defined.

End KeyboardListenerFacts.

(* ------------------------------------------------------------------------- *)
(** ** The window *)
(* ------------------------------------------------------------------------- *)

Section VoiceTypingGUIFacts.
Import VoiceTypingGUI.

Lemma window_called_spec (op : Op) (w : Window) :
  _callbacks (state_manager w) = [callback] ->
  called op w
  = match transition_table (_state (state_manager w)) op with
    | Some s => {| state_manager := set_state (state_manager w) s;
                   gui := _on_state_change s (gui w) |}
    | None => w
    end.
Proof.
  intros Hcb. unfold called. rewrite (call_single callback) by done.
  destruct (transition_table _ _); [done|by destruct w].
Qed.

Lemma window_called_ok (op : Op) (w : Window) :
  window_ok w -> window_ok (called op w).
Proof.
  intros [Hcb Hlast]. rewrite window_called_spec by done.
  destruct (transition_table _ _) as [s|]; [|done].
  split; [done|]. simpl. by rewrite last_snoc.
Qed.

Lemma update_shows (s : AppState) (g : t) : shows s (update s g).
Proof. by destruct s. Qed.

Lemma update_pending (s : AppState) (g : t) :
  pending (update s g) = pending g.
Proof. by destruct s. Qed.

Lemma window_act_ok (w : Window) (a : Action) :
  window_ok w -> window_ok (act w a).
Proof.
  intros Hok. destruct a as [[|]|op|]; simpl.
  - destruct (btn_activate _); [by apply window_called_ok|done].
  - destruct (btn_deactivate _); [by apply window_called_ok|done].
  - by apply window_called_ok.
  - destruct Hok as [Hcb Hlast].
    destruct (pending (gui w)) as [|s rest] eqn:Hp; [by rewrite <- Hp in Hlast|].
    split; [done|]. simpl. rewrite update_pending. simpl.
    destruct rest as [|s' rest].
    + simpl in *. subst s. apply update_shows.
    + rewrite last_cons_cons in Hlast.
      destruct (last (s' :: rest)) eqn:Hl; [done|].
      by apply last_None in Hl.
Qed.

Lemma window_acts_ok (schedule : list Action) :
  forall w : Window, window_ok w -> window_ok (acts w schedule).
Proof.
  induction schedule as [|a rest IH]; intros w Hok; [done|].
  apply (IH (act w a)). by apply window_act_ok.
Qed.

Lemma window_settles (l : list AppState) :
  forall w : Window,
    pending (gui w) = l -> window_ok w ->
    let settled := acts w (replicate (length l) Idle) in
    state_manager settled = state_manager w
    /\ pending (gui settled) = []
    /\ shows (state (state_manager w)) (gui settled).
Proof.
  induction l as [|s rest IH]; intros w Hp Hok.
  - simpl. destruct Hok as [_ Hlast]. by rewrite Hp in Hlast.
  - pose proof (window_act_ok w Idle Hok) as Hok'.
    simpl replicate. unfold acts. simpl fold_left. fold (acts (act w Idle)).
    assert (Hsm : state_manager (act w Idle) = state_manager w)
      by (simpl; by rewrite Hp).
    assert (Hp' : pending (gui (act w Idle)) = rest)
      by (simpl; rewrite Hp; simpl; by rewrite update_pending).
    destruct (IH (act w Idle) Hp' Hok') as (H1 & H2 & H3).
    rewrite Hsm in H1, H3. done.
Qed.

(** X15.  Once Tk has run the updates scheduled so far, the window shows
    the state of the manager: after any sequence of clicks, transitions
    called from elsewhere and idle turns since the window was built,
    running the pending updates leaves none pending, does not touch the
    manager, and leaves the label reading "Estado: " followed by the name
    of the state, the Activate button enabled exactly when [activate] is
    legal in that state and the Deactivate button enabled exactly when
    [deactivate] is. *)
Theorem window_shows_the_state_once_idle (schedule : list Action) :
  let w := acts __init__ schedule in
  let settled := acts w (replicate (length (pending (gui w))) Idle) in
  state_manager settled = state_manager w
  /\ pending (gui settled) = []
  /\ shows (state (state_manager w)) (gui settled).
Proof.
  intros w. apply window_settles; [done|].
  apply window_acts_ok. split; [done|]. reflexivity.
Qed.

End VoiceTypingGUIFacts.

(* ------------------------------------------------------------------------- *)
(** ** The split at the required count *)
(* ------------------------------------------------------------------------- *)

(** X16.  The split comes exactly with the silent chunk that completes
    the required count.  When the reading recorder holds a buffer that is
    a non-empty part [seg] followed by the chunks its counter counts, and
    it reads silent chunks until the counter reaches the required count:
    nothing is enqueued before the last of them; the read of the last one
    enqueues exactly [seg]; and the buffer that remains is the counted
    chunks followed by all the chunks just read, with the counter at the
    required count. *)
Theorem split_happens_at_the_required_count
    (sys : System) (seg tail : list Chunk) (stream : list (Z * Chunk))
    (tc : Z * Chunk) :
  let r := recorder (workers sys) in
  capturing sys (seg ++ tail) (len tail) -> seg ≠ [] ->
  Forall (fun tc => silent r tc.2) (stream ++ [tc]) ->
  len tail + len stream + 1 = Recorder.required_silent_chunks r ->
  enqueued sys (reads stream) = []
  /\ enqueued_by (run sys (reads stream)) (RecorderTurn tc.1 (Returned tc.2))
     = [Some seg]
  /\ capturing (run sys (reads (stream ++ [tc])))
               (tail ++ chunks (stream ++ [tc]))
               (Recorder.required_silent_chunks r).
Proof.
  intros r Hcap Hseg Hall Hreq.
  apply Forall_app in Hall as [Hall Htc]. apply Forall_inv in Htc.
  assert (Hrd : reading r sys (seg ++ tail) (len tail)) by done.
  destruct (read_silent_stream r stream Hall sys (seg ++ tail) (len tail) Hrd)
    as [Hrd' Henq]; [lia|].
  rewrite <- app_assoc in Hrd'.
  destruct (read_silent_split r (run sys (reads stream)) tc.1 tc.2 seg
              (tail ++ chunks stream) (len tail + len stream) Hrd' Htc)
    as [[Hcap'' _] Henq']; [by rewrite len_app, len_chunks|done|lia|].
  split; [done|]. split; [done|].
  rewrite reads_app, run_app, chunks_app, app_assoc. simpl.
  by rewrite <- Hreq.
Qed.

Lemma split_happens_at_the_required_count_witness :
  enqueued count_one_recording (reads []) = []
  /\ enqueued_by (run count_one_recording (reads []))
       (RecorderTurn 2 (Returned hush))
     = [Some [loud]]
  /\ capturing (run count_one_recording (reads ([] ++ [(2, hush)])))
               ([] ++ chunks ([] ++ [(2, hush)]))
               (Recorder.required_silent_chunks
                  (recorder (workers count_one_recording))).
Proof.
  apply (split_happens_at_the_required_count count_one_recording
           [loud] [] [] (2, hush)).
  - split; [|split]; by_evaluation.
  - done.
  - repeat constructor.
  - reflexivity.
Defined.

(* ------------------------------------------------------------------------- *)
(** ** Files and queue entries *)
(* ------------------------------------------------------------------------- *)

Lemma clock_snoc (schedule : list Event) (ev : Event) :
  clock (schedule ++ [ev])
  = clock schedule ++ match ev with
                      | RecorderTurn now _ => [now]
                      | _ => []
                      end.
Proof. unfold clock. rewrite omap_app. by destruct ev. Qed.

(** With recorder turns at distinct clock readings, the queue holds no
    path twice, the files are those of the queued paths, and a queued path
    is the clock reading of a turn. *)
Lemma files_match_queue_from (r : Recorder.t)
    (others : list (Callback Workers)) (schedule : list Event) :
  NoDup (clock schedule) ->
  let sys := run (boot r others) schedule in
  NoDup (queue sys)
  /\ dom (files (store sys)) = list_to_set (queue sys)
  /\ (forall p, p ∈ queue sys -> p ∈ clock schedule).
Proof.
  induction schedule as [|ev schedule IH] using rev_ind; intros Hnd.
  { simpl. split; [constructor|]. split; [set_solver|]. by intros p H. }
  rewrite clock_snoc in Hnd. cbv zeta. rewrite run_snoc, clock_snoc.
  apply NoDup_app in Hnd as (Hnd & Hfresh & _).
  destruct (IH Hnd) as (Hq & Hdom & Hin). clear IH.
  set (sys := run (boot r others) schedule) in *.
  destruct ev as [op|now read|transcribed].
  - destruct (step_call_store sys op) as [Hst _].
    unfold queue in *. rewrite Hst, app_nil_r. done.
  - rewrite step_recorder. unfold queue in *. simpl.
    destruct (turn_store now read (recorder (workers sys)) (store sys))
      as [->|(seg & _ & ->)].
    + split; [done|]. split; [done|].
      intros p Hp. apply elem_of_app. left. by apply Hin.
    + rewrite write_and_put_queue, write_and_put_files.
      assert (Hnew : now ∉ audio_queue (store sys)).
      { intros Hp. apply (Hfresh now); [by apply Hin|constructor]. }
      split; [|split].
      * apply NoDup_app. split; [done|]. split; [|apply NoDup_singleton].
        intros p Hp ->%list_elem_of_singleton. done.
      * rewrite dom_insert_L, Hdom, list_to_set_app_L. simpl.
        rewrite (right_id_L ∅ (∪)). apply (comm_L (∪)).
      * intros p [Hp| ->%list_elem_of_singleton]%elem_of_app;
          apply elem_of_app; [left; by apply Hin|right; constructor].
  - rewrite step_transcriber. unfold queue in *. simpl. rewrite app_nil_r.
    destruct (transcriber_turn_store transcribed (transcriber (workers sys))
                (store sys) (typed sys)) as [->|(f & rest & Hqueue & ->)];
      [done|].
    rewrite Hqueue in *. simpl.
    apply NoDup_cons in Hq as [Hhead Hrest].
    split; [done|]. split.
    + rewrite dom_delete_L, Hdom. simpl. apply set_eq. intros x.
      rewrite elem_of_difference, elem_of_union, elem_of_singleton,
        elem_of_list_to_set.
      split; [by intros [[?|?] ?]|].
      intros Hx. split; [by right|]. by intros ->.
    + intros p Hp. apply Hin. by right.
Qed.

(** X17.  As long as the recorder's turns fall in distinct clock seconds,
    files and queue entries correspond one to one in every state reached
    from the start: no path is queued twice, every queued path has its
    file, and every file is queued (none is left behind, none is removed
    before its entry is taken). *)
Theorem files_and_queue_entries_correspond
    (r : Recorder.t) (others : list (Callback Workers))
    (schedule : list Event) :
  NoDup (clock schedule) ->
  let sys := run (boot r others) schedule in
  NoDup (queue sys)
  /\ dom (files (store sys)) = list_to_set (queue sys).
Proof.
  intros Hnd.
  destruct (files_match_queue_from r others schedule Hnd) as (H1 & H2 & _).
  done.
Qed.

Lemma files_and_queue_entries_correspond_witness :
  let sys :=
    run (boot (Recorder.fresh 48000 1024 300 1) [])
        [Call Activate; Call StartRecording;
         RecorderTurn 1 (Returned loud); RecorderTurn 2 (Returned hush);
         RecorderTurn 3 (Returned loud); RecorderTurn 4 (Returned hush);
         TranscriberTurn (Returned "oi"%string)] in
  NoDup (queue sys)
  /\ dom (files (store sys)) = list_to_set (queue sys).
Proof.
  apply (files_and_queue_entries_correspond
           (Recorder.fresh 48000 1024 300 1) []
           [Call Activate; Call StartRecording;
            RecorderTurn 1 (Returned loud); RecorderTurn 2 (Returned hush);
            RecorderTurn 3 (Returned loud); RecorderTurn 4 (Returned hush);
            TranscriberTurn (Returned "oi"%string)]).
  refine (bool_decide_unpack _ _). vm_compute. exact I.
Defined.

(* ------------------------------------------------------------------------- *)
(** ** How a worker ends *)
(* ------------------------------------------------------------------------- *)




